(** * TuringFormation: the fragment processor of [lambda_handler.py]

    A shallow embedding of [process_fragment], of the two registered
    functions [splice] and [for_each] and of [json_string_sub], followed by
    the properties of the specification that were checked against them.

    Modelling choices.
    - A document is a JSON tree: [value].  A Python [dict] keeps insertion
      order, so it is an association list with unique keys ([dict_set]
      overwrites in place or appends).
    - Strings are [string]; a character stands for a code point below 256.
    - A float is only ever printed by this program; it is represented by its
      [repr].
    - The program mutates the document in place.  The document is a tree
      (the functions move or rebuild sub-documents, they never duplicate a
      reference to a mutable object), so every object has one owner and the
      state of an object is the state of the tree below it.  Each function
      takes the objects it may mutate and returns their final contents,
      together with how it completed; the state at the point of an
      exception is kept.
    - [parent] and [key] of [process_fragment] come in three shapes:
      [None]/[None] at the root, a list and an index, a dict and one of its
      keys.  [kind] names the shape, [container] and [index] give the types
      of [parent] and [key] at that shape. *)

From Stdlib Require Import String Ascii List ZArith Lia Bool Arith DecimalString.
Import ListNotations.
Local Open Scope string_scope.
Local Open Scope list_scope.
Local Open Scope nat_scope.

Set Implicit Arguments.

(** ** Python dictionaries with string keys *)

Definition dict (A : Type) : Type := list (string * A).

Fixpoint dict_get {A} (d : dict A) (k : string) : option A :=
  match d with
  | [] => None
  | (k', v) :: rest => if String.eqb k' k then Some v else dict_get rest k
  end.

Fixpoint dict_set {A} (d : dict A) (k : string) (v : A) : dict A :=
  match d with
  | [] => [(k, v)]
  | (k', v') :: rest =>
      if String.eqb k' k then (k', v) :: rest else (k', v') :: dict_set rest k v
  end.

Definition dict_keys {A} (d : dict A) : list string := map fst d.

(** A Python [set] of strings, used only for membership. *)
Definition set_mem (k : string) (s : list string) : bool :=
  existsb (String.eqb k) s.

(** [l[i] = v] on a list that is long enough. *)
Fixpoint list_set {A} (l : list A) (i : nat) (v : A) : list A :=
  match l, i with
  | [], _ => []
  | _ :: rest, 0 => v :: rest
  | x :: rest, S i' => x :: list_set rest i' v
  end.

(** ** Documents *)

Unset Elimination Schemes.
Inductive value : Type :=
| VNone
| VBool (b : bool)
| VInt (z : Z)
| VFloat (repr : string)
| VStr (s : string)
| VList (l : list value)
| VDict (d : list (string * value)).
Set Elimination Schemes.

(** Induction on documents, with the hypothesis for every element of a list
    and every value of a dict. *)
Section ValueInduction.
Variable P : value -> Prop.
Hypothesis HNone : P VNone.
Hypothesis HBool : forall b, P (VBool b).
Hypothesis HInt : forall z, P (VInt z).
Hypothesis HFloat : forall r, P (VFloat r).
Hypothesis HStr : forall s, P (VStr s).
Hypothesis HList : forall l, Forall P l -> P (VList l).
Hypothesis HDict : forall d, Forall (fun kv => P (snd kv)) d -> P (VDict d).

Fixpoint value_ind (v : value) : P v :=
  match v with
  | VNone => HNone
  | VBool b => HBool b
  | VInt z => HInt z
  | VFloat r => HFloat r
  | VStr s => HStr s
  | VList l =>
      HList ((fix go (l : list value) : Forall P l :=
                match l with
                | [] => Forall_nil P
                | x :: xs => Forall_cons x (value_ind x) (go xs)
                end) l)
  | VDict d =>
      HDict ((fix go (d : list (string * value))
                : Forall (fun kv => P (snd kv)) d :=
                match d with
                | [] => Forall_nil _
                | kv :: xs =>
                    @Forall_cons _ (fun kv => P (snd kv)) kv xs
                      (value_ind (snd kv)) (go xs)
                end) d)
  end.
End ValueInduction.

(** ** [str] and [repr] of a document *)

Definition quote1 : ascii := "'"%char.
Definition quote2 : ascii := ascii_of_nat 34.
Definition backslash : ascii := ascii_of_nat 92.

Definition hex_digit (n : nat) : ascii :=
  nth n (list_ascii_of_string "0123456789abcdef") "0"%char.

Definition is_printable (c : ascii) : bool :=
  let n := nat_of_ascii c in
  ((32 <=? n) && (n <=? 126)) || ((161 <=? n) && negb (n =? 173))%nat.

Definition repr_char (quote c : ascii) : string :=
  let n := nat_of_ascii c in
  if Ascii.eqb c quote || Ascii.eqb c backslash then String backslash (String c "")
  else if n =? 9 then String backslash "t"
  else if n =? 10 then String backslash "n"
  else if n =? 13 then String backslash "r"
  else if is_printable c then String c ""
  else String backslash
         (String "x" (String (hex_digit (n / 16)) (String (hex_digit (n mod 16)) ""))).

Definition contains_char (c : ascii) (s : string) : bool :=
  existsb (Ascii.eqb c) (list_ascii_of_string s).

(** [repr(s)] for a [str]: single quotes unless the text has a single quote
    and no double quote. *)
Definition repr_str (s : string) : string :=
  let quote :=
    if contains_char quote1 s && negb (contains_char quote2 s)
    then quote2 else quote1 in
  String quote
    (String.concat "" (map (repr_char quote) (list_ascii_of_string s))
     ++ String quote "")%string.

Definition str_int (z : Z) : string := NilZero.string_of_int (Z.to_int z).

Fixpoint py_repr (v : value) : string :=
  match v with
  | VNone => "None"
  | VBool true => "True"
  | VBool false => "False"
  | VInt z => str_int z
  | VFloat r => r
  | VStr s => repr_str s
  | VList l => ("[" ++ String.concat ", " (map py_repr l) ++ "]")%string
  | VDict d =>
      ("{" ++ String.concat ", "
                (map (fun kv => repr_str (fst kv) ++ ": " ++ py_repr (snd kv)) d)
           ++ "}")%string
  end.

(** [str(v)] *)
Definition py_str (v : value) : string :=
  match v with
  | VStr s => s
  | _ => py_repr v
  end.

(** [type(v).__name__] *)
Definition type_name (v : value) : string :=
  match v with
  | VNone => "NoneType"
  | VBool _ => "bool"
  | VInt _ => "int"
  | VFloat _ => "float"
  | VStr _ => "str"
  | VList _ => "list"
  | VDict _ => "dict"
  end.

(** ** Exceptions and completions *)

Inductive exn_class : Type :=
| RecursionError | ValueError | TypeError | KeyError | IndexError.

Inductive exn : Type := Exception (cls : exn_class) (msg : string).

Definition class_of (e : exn) : exn_class := let 'Exception c _ := e in c.

(** How a call ended: it returned, it raised, or the model ran out of the
    steps it was given (which says nothing about the program). *)
Inductive completion : Type :=
| Returned
| Raised (e : exn)
| OutOfFuel.

(** ** [string.Template(...).safe_substitute]

    The pattern of [string.Template]: a [$] followed by, in this order of
    preference, a second [$] (escaped), an identifier (named), an
    identifier between braces (braced), or nothing (invalid).  Identifiers
    are ASCII, [[_a-z][_a-z0-9]*] ignoring case, and match greedily. *)

Definition is_id_start (c : ascii) : bool :=
  let n := nat_of_ascii c in
  (n =? 95) || ((97 <=? n) && (n <=? 122)) || ((65 <=? n) && (n <=? 90)).

Definition is_id_char (c : ascii) : bool :=
  let n := nat_of_ascii c in
  is_id_start c || ((48 <=? n) && (n <=? 57)).

(** The longest prefix of identifier characters. *)
Fixpoint id_chars (s : string) : string :=
  match s with
  | String c rest => if is_id_char c then String c (id_chars rest) else ""
  | "" => ""
  end.

(** An identifier at the start of [s], if there is one. *)
Definition identifier (s : string) : option string :=
  match s with
  | String c _ => if is_id_start c then Some (id_chars s) else None
  | "" => None
  end.

Inductive match_object : Type :=
| escaped
| named (name : string)
| braced (name : string)
| invalid.

Definition skipn_string (n : nat) (s : string) : string :=
  substring n (String.length s - n) s.

Definition head_is (c : ascii) (s : string) : bool :=
  match s with
  | String c' _ => Ascii.eqb c' c
  | "" => false
  end.

(** The match at a [$], given the text after it: which group matched and
    how many characters after the [$] the match covers. *)
Definition pattern_match (rest : string) : match_object * nat :=
  match rest with
  | "" => (invalid, 0)
  | String c rest' =>
      if Ascii.eqb c "$" then (escaped, 1)
      else
        match identifier rest with
        | Some name => (named name, String.length name)
        | None =>
            if Ascii.eqb c "{" then
              match identifier rest' with
              | Some name =>
                  if head_is "}" (skipn_string (String.length name) rest')
                  then (braced name, String.length name + 2)
                  else (invalid, 0)
              | None => (invalid, 0)
              end
            else (invalid, 0)
        end
  end.

(** [convert] of [safe_substitute]; [group] is the whole matched text. *)
Definition convert (mapping : dict string) (mo : match_object) (group : string)
  : string :=
  match mo with
  | named name | braced name =>
      match dict_get mapping name with
      | Some v => v
      | None => group
      end
  | escaped => "$"
  | invalid => group
  end.

(** [pattern.sub(convert, template)]: left to right, every match replaced,
    the text between matches copied.  [skip] counts the characters still
    covered by the last match. *)
Fixpoint pattern_sub (mapping : dict string) (template : string) (skip : nat)
  : string :=
  match template with
  | "" => ""
  | String c rest =>
      match skip with
      | S skip' => pattern_sub mapping rest skip'
      | 0 =>
          if Ascii.eqb c "$" then
            let '(mo, len) := pattern_match rest in
            (convert mapping mo (String "$" (substring 0 len rest))
               ++ pattern_sub mapping rest len)%string
          else String c (pattern_sub mapping rest 0)
      end
  end.

Definition safe_substitute (template : string) (mapping : dict string) : string :=
  pattern_sub mapping template 0.

(** ** [json_string_sub] *)

Fixpoint json_string_sub (body : value) (mapping : dict string) : value :=
  match body with
  | VDict d =>
      VDict
        (fold_left
           (fun acc kv =>
              dict_set acc (safe_substitute (fst kv) mapping)
                (json_string_sub (snd kv) mapping))
           d [])
  | VList l => VList (map (fun el => json_string_sub el mapping) l)
  | VStr s => VStr (safe_substitute s mapping)
  | _ => body
  end.

(** ** The slot of a fragment: [parent] and [key] *)

Inductive kind : Type :=
| Root     (* parent=None, key=None *)
| InList   (* parent is a list, key an index *)
| InDict.  (* parent is a dict, key a key *)

Definition container (k : kind) : Type :=
  match k with
  | Root => unit
  | InList => list value
  | InDict => dict value
  end.

Definition index (k : kind) : Type :=
  match k with
  | Root => unit
  | InList => nat
  | InDict => string
  end.

(** [parent[key] = v] *)
Definition py_setitem (k : kind)
  : container k -> index k -> value -> container k * completion :=
  match k with
  | Root => fun parent _ _ =>
      (parent,
       Raised (Exception TypeError
                 "'NoneType' object does not support item assignment"))
  | InList => fun parent key v =>
      if key <? length parent then (list_set parent key v, Returned)
      else (parent,
            Raised (Exception IndexError "list assignment index out of range"))
  | InDict => fun parent key v => (dict_set parent key v, Returned)
  end.

(** The object at [parent[key]] is the very object [fragment] that
    [process_fragment] mutates in place: after the mutation the parent
    shows the new contents.  [alias] writes them into the tree. *)
Definition alias (k : kind) : container k -> index k -> value -> container k :=
  match k with
  | Root => fun parent _ _ => parent
  | InList => fun parent key v => list_set parent key v
  | InDict => fun parent key v => dict_set parent key v
  end.

(** ** [splice] *)

Definition splice (k : kind)
  : container k -> index k -> value -> container k * completion :=
  match k with
  | InList => fun parent key fragment =>
      match fragment with
      | VList items =>
          (* parent[key:key+1] = fragment *)
          (firstn key parent ++ items ++ skipn (key + 1) parent, Returned)
      | _ =>
          (parent,
           Raised (Exception TypeError
                     ("Turing::Splice cannot splice " ++ type_name fragment
                      ++ " into mapping")%string))
      end
  | _ => fun parent _ _ =>
      (* the [%] of the message is given one argument for two [%s] *)
      (parent,
       Raised (Exception TypeError "not enough arguments for format string"))
  end.

(** ** [for_each] *)

Definition usage_msg (v : value) : string :=
  ("Turing::ForEach argument must be a 2-element list of "
   ++ "[[x, [a, b, ...], y, [c, d, ...], ...], body]: " ++ py_str v)%string.

(** The loop over [iteration_specs], which fills [var_names] and
    [var_values] or raises. *)
Fixpoint iteration_specs_loop (fragment : value) (iteration_specs : list value)
  (var_names : list string) (var_values : list (list string))
  : exn + (list string * list (list string)) :=
  match iteration_specs with
  | [] => inr (var_names, var_values)
  | iteration_spec :: rest =>
      match iteration_spec with
      | VList spec =>
          match spec with
          | [name; values] =>
              match name, values with
              | VStr name, VList values =>
                  iteration_specs_loop fragment rest
                    (var_names ++ [name])
                    (var_values ++ [map py_str values])
              | _, _ => inl (Exception TypeError (usage_msg iteration_spec))
              end
          | _ => inl (Exception ValueError (usage_msg iteration_spec))
          end
      | _ => inl (Exception TypeError (usage_msg fragment))
      end
  end.

(** The [for i in range(n_variables - 1, -1, -1)] loop with its [break] and
    [else]: [i] positions are left to try, the next one is [i - 1].  The
    boolean tells whether the loop ended by [break]. *)
Fixpoint next_combination (var_names : list string)
  (var_values : list (list string)) (n_variable_values : list nat)
  (i : nat) (indexes : list nat) (current_values : dict string)
  : list nat * dict string * bool :=
  match i with
  | 0 => (indexes, current_values, false)
  | S i =>
      let var_name := nth i var_names "" in
      let new_index := nth i indexes 0 + 1 in
      if new_index <? nth i n_variable_values 0 then
        (list_set indexes i new_index,
         dict_set current_values var_name
           (nth new_index (nth i var_values []) ""),
         true)
      else
        next_combination var_names var_values n_variable_values i
          (list_set indexes i 0)
          (dict_set current_values var_name (nth 0 (nth i var_values []) ""))
  end.

(** The [while True] loop.  [fuel] bounds the number of iterations;
    [None] means the bound was reached. *)
Fixpoint combinations_loop (fuel : nat) (body : value) (var_names : list string)
  (var_values : list (list string)) (n_variable_values : list nat)
  (indexes : list nat) (current_values : dict string) (result : list value)
  : option (list value) :=
  match fuel with
  | 0 => None
  | S fuel =>
      let result := result ++ [json_string_sub body current_values] in
      let '(indexes, current_values, broke) :=
        next_combination var_names var_values n_variable_values
          (length var_names) indexes current_values in
      if broke then
        combinations_loop fuel body var_names var_values n_variable_values
          indexes current_values result
      else Some result
  end.

(** [{var_names[i]: var_values[i][0] for i in range(n_variables)}] *)
Definition starting_values (var_names : list string)
  (var_values : list (list string)) : dict string :=
  fold_left
    (fun acc i => dict_set acc (nth i var_names "") (nth 0 (nth i var_values []) ""))
    (seq 0 (length var_names)) [].

Definition for_each (k : kind) (parent : container k) (key : index k)
  (fragment : value) : container k * completion :=
  match fragment with
  | VList items =>
      match items with
      | [iteration_specs; body] =>
          match iteration_specs with
          | VList specs =>
              match iteration_specs_loop fragment specs [] [] with
              | inl e => (parent, Raised e)
              | inr (var_names, var_values) =>
                  if existsb (fun values => length values =? 0) var_values
                  then py_setitem k parent key (VList [])
                  else
                    let n_variables := length var_names in
                    let indexes := repeat 0 n_variables in
                    let n_variable_values := map (@length string) var_values in
                    let current_values := starting_values var_names var_values in
                    match
                      combinations_loop (fold_right Nat.mul 1 n_variable_values)
                        body var_names var_values n_variable_values indexes
                        current_values []
                    with
                    | Some result => py_setitem k parent key (VList result)
                    | None => (parent, OutOfFuel)
                    end
              end
          | _ => (parent, Raised (Exception TypeError (usage_msg fragment)))
          end
      | _ => (parent, Raised (Exception ValueError (usage_msg fragment)))
      end
  | _ => (parent, Raised (Exception TypeError (usage_msg fragment)))
  end.

(** ** The registry [functions] *)

Definition handler : Type :=
  forall k : kind, container k -> index k -> value -> container k * completion.

Definition functions : dict handler :=
  [("Turing::Splice", splice);
   ("Turing::ForEach", for_each);
   ("Turing::Foreach", for_each)].

(** ** [process_fragment] *)

Definition MAX_RECURSION : nat := 16.

Definition startswith (s prefix : string) : bool := String.prefix prefix s.

Section Walker.
(** The recursive call on a child of a dict and on an element of a list;
    it returns the parent, the child and how it completed. *)
Variable process_entry
  : dict value -> string -> value -> dict value * value * completion.
Variable process_item
  : list value -> nat -> value -> list value * value * completion.

(** [for fragment_key in fragment_keys]: one pass over a snapshot of the
    keys.  Returns [new_fragment_key_seen], [fragment_keys_seen] and the
    dict. *)
Fixpoint keys_pass (fragment_keys : list string) (new_fragment_key_seen : bool)
  (fragment_keys_seen : list string) (fragment : dict value)
  : bool * list string * dict value * completion :=
  match fragment_keys with
  | [] => (new_fragment_key_seen, fragment_keys_seen, fragment, Returned)
  | fragment_key :: rest =>
      if set_mem fragment_key fragment_keys_seen then
        keys_pass rest new_fragment_key_seen fragment_keys_seen fragment
      else
        let fragment_keys_seen := fragment_key :: fragment_keys_seen in
        match dict_get fragment fragment_key with
        | None =>
            (true, fragment_keys_seen, fragment,
             Raised (Exception KeyError (repr_str fragment_key)))
        | Some child =>
            let '(fragment, _, c) := process_entry fragment fragment_key child in
            match c with
            | Returned => keys_pass rest true fragment_keys_seen fragment
            | _ => (true, fragment_keys_seen, fragment, c)
            end
        end
  end.

(** [fragment.keys() - fragment_keys_seen] is not empty. *)
Definition keys_unseen (fragment : dict value) (fragment_keys_seen : list string)
  : bool :=
  existsb (fun k => negb (set_mem k fragment_keys_seen)) (dict_keys fragment).

(** [for i in range(MAX_RECURSION): ... else: ...], with [n] passes left. *)
Fixpoint passes (n : nat) (fragment_keys_seen : list string)
  (fragment : dict value) : dict value * completion :=
  match n with
  | 0 =>
      if keys_unseen fragment fragment_keys_seen then
        (fragment,
         Raised (Exception RecursionError "Maximum recursion on mapping node"))
      else (fragment, Returned)
  | S n =>
      let '(new_fragment_key_seen, fragment_keys_seen, fragment, c) :=
        keys_pass (dict_keys fragment) false fragment_keys_seen fragment in
      match c with
      | Returned =>
          if negb new_fragment_key_seen then (fragment, Returned)
          else passes n fragment_keys_seen fragment
      | _ => (fragment, c)
      end
  end.

(** [for i, item in enumerate(fragment)] over the live list: the iterator
    holds the index [i] and reads the list again at every step.  [fuel]
    bounds the number of steps. *)
Fixpoint enumerate_loop (fuel : nat) (fragment : list value) (i : nat)
  : list value * completion :=
  match fuel with
  | 0 => (fragment, OutOfFuel)
  | S fuel =>
      match nth_error fragment i with
      | None => (fragment, Returned)
      | Some item =>
          let '(fragment, _, c) := process_item fragment i item in
          match c with
          | Returned => enumerate_loop fuel fragment (i + 1)
          | _ => (fragment, c)
          end
      end
  end.
End Walker.

(** [for key, value in fragment.items()]: the function call, if any. *)
Fixpoint items_loop (k : kind) (parent : container k) (parent_key : index k)
  (fragment : dict value) (items : list (string * value))
  : container k * completion :=
  match items with
  | [] => (parent, Returned)
  | (key, value) :: rest =>
      if startswith key "Turing::" then
        if negb (length fragment =? 1) then
          (parent,
           Raised (Exception ValueError
                     ("Function call " ++ key
                      ++ " must be the only element in mapping")%string))
        else
          match dict_get functions key with
          | None =>
              (parent,
               Raised (Exception ValueError ("Unknown function " ++ key)%string))
          | Some function =>
              let '(parent, c) := function k parent parent_key value in
              match c with
              | Returned => items_loop k parent parent_key fragment rest
              | _ => (parent, c)
              end
          end
      else items_loop k parent parent_key fragment rest
  end.

(** [process_fragment(parent, key, fragment)].  [fuel] bounds the depth of
    the recursion and the steps of each list walk.  The result is the
    parent, the fragment and how the call completed. *)
Fixpoint process_fragment (fuel : nat) (k : kind) (parent : container k)
  (key : index k) (fragment : value) : container k * value * completion :=
  match fuel with
  | 0 => (parent, fragment, OutOfFuel)
  | S fuel =>
      match fragment with
      | VDict d =>
          let '(d, c) :=
            passes (process_fragment fuel InDict) MAX_RECURSION [] d in
          let parent := alias k parent key (VDict d) in
          match c with
          | Returned =>
              let '(parent, c) := items_loop k parent key d d in
              (parent, VDict d, c)
          | _ => (parent, VDict d, c)
          end
      | VList l =>
          let '(l, c) := enumerate_loop (process_fragment fuel InList) fuel l 0 in
          (alias k parent key (VList l), VList l, c)
      | _ => (parent, fragment, Returned)
      end
  end.

(** The call of [handler]: [process_fragment(parent=None, key=None,
    fragment=fragment)]. *)
Definition resolve (fuel : nat) (fragment : value) : value * completion :=
  let '(_, fragment, c) := process_fragment fuel Root tt tt fragment in
  (fragment, c).

(** ** Vocabulary of the specification *)

(** A single-entry mapping: a function-call node when [name] carries the
    reserved prefix. *)
Definition call (name : string) (argument : value) : value :=
  VDict [(name, argument)].

(** Well-formed [iterationSpecs]: a list of [[name, valueList]] pairs. *)
Definition iteration_specs_of (specs : list (string * list value)) : list value :=
  map (fun spec => VList [VStr (fst spec); VList (snd spec)]) specs.

Definition for_each_argument (specs : list (string * list value)) (body : value)
  : value :=
  VList [VList (iteration_specs_of specs); body].

Definition spec_names (specs : list (string * list value)) : list string :=
  map fst specs.

(** The value lists, every value coerced to its string form. *)
Definition spec_values (specs : list (string * list value)) : list (list string) :=
  map (fun spec => map py_str (snd spec)) specs.

(** Every combination of one value per variable, in odometer order: the
    first variable is the slowest, the last the fastest. *)
Fixpoint combinations (var_values : list (list string)) : list (list string) :=
  match var_values with
  | [] => [[]]
  | values :: rest =>
      flat_map (fun v => map (cons v) (combinations rest)) values
  end.

(** The binding of one combination, built afresh: each name with the value
    of its variable, in the order of declaration. *)
Definition fresh_binding (var_names : list string) (combination : list string)
  : dict string :=
  fold_left (fun acc nv => dict_set acc (fst nv) (snd nv))
    (combine var_names combination) [].

Definition product (ns : list nat) : nat := fold_right Nat.mul 1 ns.









Section Passes.
Variable process_entry
  : dict value -> string -> value -> dict value * value * completion.

End Passes.

Definition convergence_error : exn :=
  Exception RecursionError "Maximum recursion on mapping node".

Definition malformed_call_error (name : string) : exn :=
  Exception ValueError
    ("Function call " ++ name ++ " must be the only element in mapping")%string.

Definition no_slot_error : exn :=
  Exception TypeError "'NoneType' object does not support item assignment".

(** [parent'] differs from [parent] at most in the slot [key] (for a list:
    from index [key] on, since a splice moves what follows). *)
Definition same_outside (k : kind)
  : container k -> index k -> container k -> Prop :=
  match k with
  | Root => fun _ _ _ => True
  | InList => fun parent key parent' =>
      key <= length parent -> firstn key parent' = firstn key parent
  | InDict => fun parent key parent' =>
      (In key (dict_keys parent) -> dict_keys parent' = dict_keys parent)
      /\ forall k', k' <> key -> dict_get parent' k' = dict_get parent k'
  end.

(** ** The odometer of [for_each], on index vectors

    [dims] holds the number of values of each variable, [idx] the current
    index of each. *)

(** The successor of [idx], advancing the last position first; [None] when
    every position is at its last value. *)
Fixpoint next_index (dims idx : list nat) : option (list nat) :=
  match dims, idx with
  | d :: dims', x :: idx' =>
      match next_index dims' idx' with
      | Some idx'' => Some (x :: idx'')
      | None =>
          if x + 1 <? d then Some ((x + 1) :: repeat 0 (length dims'))
          else None
      end
  | _, _ => None
  end.

Fixpoint all_indexes (dims : list nat) : list (list nat) :=
  match dims with
  | [] => [[]]
  | d :: dims' =>
      flat_map (fun y => map (cons y) (all_indexes dims')) (seq 0 d)
  end.

(** The index vectors from [idx] on, in odometer order. *)
Fixpoint indexes_from (dims idx : list nat) : list (list nat) :=
  match dims, idx with
  | d :: dims', x :: idx' =>
      map (cons x) (indexes_from dims' idx')
      ++ flat_map (fun y => map (cons y) (all_indexes dims'))
           (seq (x + 1) (d - (x + 1)))
  | _, _ => [[]]
  end.

(** The values picked by an index vector. *)
Fixpoint select (var_values : list (list string)) (idx : list nat) : list string :=
  match var_values, idx with
  | values :: rest, x :: idx' => nth x values "" :: select rest idx'
  | _, _ => []
  end.

(** [current_values] holds exactly the names, each with the value of its
    variable in [combination]. *)
Definition binding_agrees (var_names combination : list string)
  (current_values : dict string) : Prop :=
  (forall j, j < length var_names ->
             dict_get current_values (nth j var_names "")
             = Some (nth j combination ""))
  /\ forall name, ~ In name var_names -> dict_get current_values name = None.

(** ** [handler] *)

(** How a call of [handler] ends: with its response, with an exception that
    nothing caught, or without an answer from the model. *)
Inductive outcome : Type :=
| Response (response : dict value)
| Uncaught (e : exn)
| Unfinished.

(** [handler(event, context)], without its [print] calls.  The four keys
    are read before the [try]; the [except Exception] clause catches every
    exception of [process_fragment]. *)
Module lambda_handler.
Definition handler (fuel : nat) (event : dict value) (context : value) : outcome :=
  match dict_get event "fragment" with
  | None => Uncaught (Exception KeyError (repr_str "fragment"))
  | Some fragment =>
      match dict_get event "requestId" with
      | None => Uncaught (Exception KeyError (repr_str "requestId"))
      | Some request_id =>
          match dict_get event "params" with
          | None => Uncaught (Exception KeyError (repr_str "params"))
          | Some params =>
              match dict_get event "templateParameterValues" with
              | None =>
                  Uncaught
                    (Exception KeyError (repr_str "templateParameterValues"))
              | Some template_params =>
                  let '(_, fragment, c) :=
                    process_fragment fuel Root tt tt fragment in
                  match c with
                  | Returned =>
                      Response [("fragment", fragment);
                                ("requestId", request_id);
                                ("status", VStr "success")]
                  | Raised _ =>
                      Response [("fragment", fragment);
                                ("requestId", request_id);
                                ("status", VStr "failed")]
                  | OutOfFuel => Unfinished
                  end
              end
          end
      end
  end.
End lambda_handler.

(** ** Vocabulary for the further properties *)

(** No key of any mapping of the document carries the reserved prefix. *)
Fixpoint call_free (v : value) : bool :=
  match v with
  | VList l => forallb call_free l
  | VDict d =>
      forallb
        (fun kv => negb (startswith (fst kv) "Turing::") && call_free (snd kv))
        d
  | _ => true
  end.

(** Fuel that is enough to walk a document in which no function is called:
    one more than the depth, and at least two more than the length of
    every list (each list walk is given the fuel of its elements). *)
Fixpoint fuel_for (v : value) : nat :=
  match v with
  | VList l => S (Nat.max (S (length l)) (list_max (map fuel_for l)))
  | VDict d => S (list_max (map (fun kv => fuel_for (snd kv)) d))
  | _ => 1
  end.

(** [parent[key]] is [v]. *)
Definition slot_holds (k : kind) : container k -> index k -> value -> Prop :=
  match k with
  | Root => fun _ _ _ => True
  | InList => fun parent key v => nth_error parent key = Some v
  | InDict => fun parent key v => dict_get parent key = Some v
  end.

(** When [parent] is a list, [key] is one of its indexes. *)
Definition index_in_range (k : kind) : container k -> index k -> Prop :=
  match k with
  | InList => fun parent key => key < length parent
  | _ => fun _ _ => True
  end.

(** The exceptions the two registered functions and the walker raise on a
    document: a [TypeError] or a [ValueError]. *)
Definition type_or_value_error (e : exn) : Prop :=
  class_of e = TypeError \/ class_of e = ValueError.

(** No string of the document, key or value, holds a [$]. *)
Fixpoint dollar_free (v : value) : bool :=
  match v with
  | VStr s => negb (contains_char "$" s)
  | VList l => forallb dollar_free l
  | VDict d =>
      forallb
        (fun kv => negb (contains_char "$" (fst kv)) && dollar_free (snd kv)) d
  | _ => true
  end.

(** The keys of every mapping of the document are distinct, as they are in
    a Python dict. *)
Fixpoint keys_distinct (v : value) : Prop :=
  match v with
  | VList l => fold_right (fun el acc => keys_distinct el /\ acc) True l
  | VDict d =>
      NoDup (dict_keys d)
      /\ fold_right (fun kv acc => keys_distinct (snd kv) /\ acc) True d
  | _ => True
  end.

(** * Properties *)

(** ** Lists and dictionaries *)

Lemma list_set_length A (l : list A) i v : length (list_set l i v) = length l.
Proof.
  revert i; induction l as [|x l IH]; intros [|i]; simpl; auto.
Qed.

Lemma firstn_list_set A (l : list A) i v : firstn i (list_set l i v) = firstn i l.
Proof.
  revert i; induction l as [|x l IH]; intros [|i]; simpl; auto.
  now rewrite IH.
Qed.

Lemma skipn_list_set A (l : list A) i v :
  skipn (i + 1) (list_set l i v) = skipn (i + 1) l.
Proof.
  revert i; induction l as [|x l IH]; intros [|i]; simpl; auto.
Qed.

Lemma firstn_list_set_le A (l : list A) i j v :
  j <= i -> firstn j (list_set l i v) = firstn j l.
Proof.
  revert i j; induction l as [|x l IH]; intros [|i] [|j] H; simpl; auto; try lia.
  f_equal; apply IH; lia.
Qed.

Lemma dict_set_keys A (d : dict A) k v :
  In k (dict_keys d) -> dict_keys (dict_set d k v) = dict_keys d.
Proof.
  induction d as [|[k' v'] d IH]; simpl; [tauto|].
  intros [-> | H].
  - now rewrite String.eqb_refl.
  - destruct (String.eqb k' k); simpl; [reflexivity|].
    f_equal; auto.
Qed.

Lemma dict_get_set_other A (d : dict A) k k' v :
  k <> k' -> dict_get (dict_set d k v) k' = dict_get d k'.
Proof.
  intros Hne; induction d as [|[k0 v0] d IH]; simpl.
  - destruct (String.eqb_spec k k'); [contradiction|reflexivity].
  - destruct (String.eqb_spec k0 k) as [->|Hk]; simpl.
    + destruct (String.eqb_spec k k'); [contradiction|reflexivity].
    + now rewrite IH.
Qed.

Lemma dict_get_set_same A (d : dict A) k v : dict_get (dict_set d k v) k = Some v.
Proof.
  induction d as [|[k0 v0] d IH]; simpl.
  - now rewrite String.eqb_refl.
  - destruct (String.eqb_spec k0 k) as [->|Hk]; simpl.
    + now rewrite String.eqb_refl.
    + destruct (String.eqb_spec k0 k); [contradiction|exact IH].
Qed.

Lemma dict_get_In_keys A (d : dict A) k v :
  dict_get d k = Some v -> In k (dict_keys d).
Proof.
  induction d as [|[k0 v0] d IH]; simpl; [discriminate|].
  destruct (String.eqb_spec k0 k); auto.
Qed.

(** ** [splice] *)

(** C8.  [splice] raises a [TypeError] when [parent] is not a list, and
    when [parent] is a list but the argument is not one; in both cases
    [parent] is returned as it was. *)
Theorem splice_type_mismatch (k : kind) (parent : container k) (key : index k)
  (argument : value) :
  k <> InList \/ (forall items, argument <> VList items) ->
  exists msg,
    splice k parent key argument = (parent, Raised (Exception TypeError msg)).
Proof.
  intros H; destruct k; simpl.
  - eexists; reflexivity.
  - destruct H as [H|H]; [congruence|].
    destruct argument; try (eexists; reflexivity).
    exfalso; eapply H; reflexivity.
  - eexists; reflexivity.
Qed.

Lemma splice_type_mismatch_witness :
  (exists msg,
     splice InDict [("a", VInt 1)] "a" (VList [VStr "c"])
     = ([("a", VInt 1)], Raised (Exception TypeError msg)))
  /\ (exists msg,
        splice InList [VStr "a"] 0 (VStr "c")
        = ([VStr "a"], Raised (Exception TypeError msg))).
Proof.
  split.
  - apply (@splice_type_mismatch InDict [("a", VInt 1)] "a" (VList [VStr "c"])).
    left; discriminate.
  - apply (@splice_type_mismatch InList [VStr "a"] 0 (VStr "c")).
    right; discriminate.
Defined.

(** What [splice] does to a list parent (the effect named in C1). *)
Lemma splice_list (parent : list value) (key : nat) (items : list value) :
  splice InList parent key (VList items)
  = (firstn key parent ++ items ++ skipn (key + 1) parent, Returned).
Proof. reflexivity. Qed.

Lemma splice_list_length (parent : list value) (key : nat) (items : list value) :
  key < length parent ->
  length (firstn key parent ++ items ++ skipn (key + 1) parent) + 1
  = length parent + length items.
Proof.
  intros H. rewrite !length_app, length_firstn, length_skipn. lia.
Qed.

(** ** [for_each]: the argument checks *)

Lemma iteration_specs_loop_ok fragment specs var_names var_values :
  iteration_specs_loop fragment (iteration_specs_of specs) var_names var_values
  = inr (var_names ++ spec_names specs, var_values ++ spec_values specs).
Proof.
  revert var_names var_values.
  induction specs as [|[name values] specs IH]; intros; simpl.
  - now rewrite !app_nil_r.
  - rewrite IH, <- !app_assoc. reflexivity.
Qed.

Lemma spec_names_length specs : length (spec_names specs) = length specs.
Proof. apply length_map. Qed.

Lemma spec_values_length specs : length (spec_values specs) = length specs.
Proof. apply length_map. Qed.

Lemma for_each_well_formed k parent key specs body :
  for_each k parent key (for_each_argument specs body)
  = if existsb (fun values => length values =? 0) (spec_values specs)
    then py_setitem k parent key (VList [])
    else
      match
        combinations_loop (product (map (@length string) (spec_values specs)))
          body (spec_names specs) (spec_values specs)
          (map (@length string) (spec_values specs))
          (repeat 0 (length (spec_names specs)))
          (starting_values (spec_names specs) (spec_values specs)) []
      with
      | Some result => py_setitem k parent key (VList result)
      | None => (parent, OutOfFuel)
      end.
Proof.
  unfold for_each, for_each_argument.
  rewrite iteration_specs_loop_ok. reflexivity.
Qed.

(** C6.  With well-formed [iterationSpecs] in which some value list is
    empty, [for_each] assigns the empty list to [parent[key]], whatever
    [body] is: the body plays no part in the result. *)
Theorem for_each_empty_value_list k (parent : container k) (key : index k)
  (specs : list (string * list value)) (body : value) :
  Exists (fun spec => snd spec = []) specs ->
  for_each k parent key (for_each_argument specs body)
  = py_setitem k parent key (VList [])
  /\ forall body',
       for_each k parent key (for_each_argument specs body')
       = for_each k parent key (for_each_argument specs body).
Proof.
  intros H.
  assert (E : existsb (fun values => length values =? 0) (spec_values specs) = true).
  { apply existsb_exists. apply Exists_exists in H as [spec [Hin Hnil]].
    exists (map py_str (snd spec)); split.
    - unfold spec_values. apply in_map_iff. now exists spec.
    - now rewrite Hnil. }
  split; [|intros body']; rewrite !for_each_well_formed, E; reflexivity.
Qed.

Lemma for_each_empty_value_list_witness :
  for_each InDict [("k", VNone)] "k"
    (for_each_argument [("x", [VInt 1]); ("y", [])] (VStr "${x}${y}"))
  = ([("k", VList [])], Returned).
Proof.
  apply (@for_each_empty_value_list InDict [("k", VNone)] "k"
           [("x", [VInt 1]); ("y", [])] (VStr "${x}${y}")).
  apply Exists_cons_tl, Exists_cons_hd. reflexivity.
Defined.

Lemma nth_error_list_set A (l : list A) i v :
  i < length l -> nth_error (list_set l i v) i = Some v.
Proof.
  revert i; induction l as [|x l IH]; intros [|i] H; cbn in *; try lia.
  - reflexivity.
  - apply IH. lia.
Qed.

(** C9.  With no variable at all, [for_each] assigns a one-element list,
    the body interpolated once with the empty binding: it is the value it
    hands to [parent[key] = ...] whatever the parent is; in a mapping the
    assignment returns and the entry of the key holds that list; at an
    index of a sequence the assignment returns, the element at the index
    is that list, and the sequence keeps its length.  The list is neither
    empty nor is an error raised. *)
Theorem for_each_no_variable k (parent : container k) (key : index k)
  (body : value) :
  for_each k parent key (for_each_argument [] body)
  = py_setitem k parent key (VList [json_string_sub body []])
  /\ (forall (d : dict value) (name : string),
         for_each InDict d name (for_each_argument [] body)
         = (dict_set d name (VList [json_string_sub body []]), Returned)
         /\ dict_get (dict_set d name (VList [json_string_sub body []])) name
            = Some (VList [json_string_sub body []]))
  /\ (forall (l : list value) (i : nat),
         i < length l ->
         for_each InList l i (for_each_argument [] body)
         = (list_set l i (VList [json_string_sub body []]), Returned)
         /\ nth_error (list_set l i (VList [json_string_sub body []])) i
            = Some (VList [json_string_sub body []])
         /\ length (list_set l i (VList [json_string_sub body []])) = length l).
Proof.
  split; [reflexivity|]. split.
  - intros d name. split; [reflexivity|apply dict_get_set_same].
  - intros l i Hi. split; [|split].
    + change (for_each InList l i (for_each_argument [] body))
        with (py_setitem InList l i (VList [json_string_sub body []])).
      cbn [py_setitem]. apply Nat.ltb_lt in Hi. now rewrite Hi.
    + now apply nth_error_list_set.
    + apply list_set_length.
Qed.

Lemma for_each_no_variable_witness :
  for_each InList [VStr "a"; VNone] 1 (for_each_argument [] (VStr "b $$ $x"))
  = ([VStr "a"; VList [VStr "b $ $x"]], Returned)
  /\ nth_error [VStr "a"; VList [VStr "b $ $x"]] 1 = Some (VList [VStr "b $ $x"])
  /\ length [VStr "a"; VList [VStr "b $ $x"]] = 2.
Proof.
  apply (proj2 (proj2 (@for_each_no_variable Root tt tt (VStr "b $$ $x")))
           [VStr "a"; VNone] 1).
  cbn. lia.
Defined.

(** ** What a call may change in its parent *)

Lemma same_outside_refl k parent key : @same_outside k parent key parent.
Proof. destruct k; simpl; auto. Qed.

Lemma same_outside_trans k p1 key p2 p3 :
  @same_outside k p1 key p2 -> @same_outside k p2 key p3 ->
  @same_outside k p1 key p3.
Proof.
  destruct k; simpl; auto.
  - intros H1 H2 Hle. rewrite H2, H1; auto.
    specialize (H1 Hle).
    apply (f_equal (@length value)) in H1.
    rewrite !length_firstn in H1. lia.
  - intros [K1 G1] [K2 G2]; split.
    + intros Hin. rewrite K2; rewrite K1; auto.
    + intros k' Hne. rewrite G2, G1; auto.
Qed.

Lemma alias_same_outside k parent key v :
  @same_outside k parent key (alias k parent key v).
Proof.
  destruct k; simpl; auto.
  - intros _. apply firstn_list_set.
  - split.
    + apply dict_set_keys.
    + intros k' Hne. apply dict_get_set_other; congruence.
Qed.

Lemma py_setitem_same_outside k parent key v :
  @same_outside k parent key (fst (py_setitem k parent key v)).
Proof.
  destruct k; simpl; auto.
  - destruct (key <? length parent); simpl; auto using firstn_list_set.
  - split.
    + apply dict_set_keys.
    + intros k' Hne. apply dict_get_set_other; congruence.
Qed.

Lemma splice_same_outside k parent key v :
  @same_outside k parent key (fst (splice k parent key v)).
Proof.
  destruct k; simpl; auto.
  destruct v; simpl; auto.
  intros Hle.
  rewrite firstn_app, firstn_firstn, Nat.min_id, length_firstn.
  replace (key - Nat.min key (length parent)) with 0 by lia.
  simpl. apply app_nil_r.
Qed.

(** [for_each] either leaves [parent] alone and does not return, or ends
    by assigning a list to [parent[key]]. *)
Lemma for_each_result k parent key fragment :
  (exists c, for_each k parent key fragment = (parent, c) /\ c <> Returned)
  \/ exists result,
       for_each k parent key fragment = py_setitem k parent key (VList result).
Proof.
  unfold for_each.
  destruct fragment as [| | | | |items|];
    try (left; eexists; split; [reflexivity|discriminate]).
  destruct items as [|specs [|body [|x items]]];
    try (left; eexists; split; [reflexivity|discriminate]).
  destruct specs as [| | | | |specs|];
    try (left; eexists; split; [reflexivity|discriminate]).
  destruct (iteration_specs_loop _ specs [] []) as [e|[names vals]];
    [left; eexists; split; [reflexivity|discriminate]|].
  destruct (existsb _ vals); [right; eexists; reflexivity|].
  destruct (combinations_loop _ _ _ _ _ _ _ _);
    [right; eexists; reflexivity|left; eexists; split; [reflexivity|discriminate]].
Qed.

Lemma for_each_same_outside k parent key v :
  @same_outside k parent key (fst (for_each k parent key v)).
Proof.
  destruct (for_each_result k parent key v) as [[c [E _]]|[result E]]; rewrite E.
  - apply same_outside_refl.
  - apply py_setitem_same_outside.
Qed.

Lemma functions_cases key (f : handler) :
  dict_get functions key = Some f ->
  (key = "Turing::Splice" /\ f = splice)
  \/ ((key = "Turing::ForEach" \/ key = "Turing::Foreach") /\ f = for_each).
Proof.
  unfold functions; cbn [dict_get].
  destruct (String.eqb_spec "Turing::Splice" key) as [<-|_];
    [intros H; assert (f = splice) by congruence; auto|].
  destruct (String.eqb_spec "Turing::ForEach" key) as [<-|_];
    [intros H; assert (f = for_each) by congruence; auto|].
  destruct (String.eqb_spec "Turing::Foreach" key) as [<-|_];
    [intros H; assert (f = for_each) by congruence; auto|discriminate].
Qed.

Lemma items_loop_same_outside k parent key fragment items :
  @same_outside k parent key (fst (items_loop k parent key fragment items)).
Proof.
  revert parent; induction items as [|[name v] items IH]; intros parent;
    cbn [items_loop].
  - apply same_outside_refl.
  - destruct (startswith name "Turing::"); [|apply IH].
    destruct (negb (length fragment =? 1)); [apply same_outside_refl|].
    destruct (dict_get functions name) as [f|] eqn:E; [|apply same_outside_refl].
    assert (Hf : forall p, @same_outside k p key (fst (f k p key v))).
    { intros p. apply functions_cases in E as [[_ ->]|[_ ->]].
      - apply splice_same_outside.
      - apply for_each_same_outside. }
    specialize (Hf parent).
    destruct (f k parent key v) as [parent' c]; cbn [fst] in Hf.
    destruct c; cbn [fst]; auto.
    eapply same_outside_trans; [exact Hf|apply IH].
Qed.

Lemma process_fragment_same_outside fuel k parent key fragment :
  @same_outside k parent key (fst (fst (process_fragment fuel k parent key fragment))).
Proof.
  destruct fuel as [|fuel]; cbn [process_fragment fst];
    [apply same_outside_refl|].
  destruct fragment; cbn [fst]; try apply same_outside_refl.
  - destruct (enumerate_loop _ _ _ _) as [l' c]; cbn [fst].
    apply alias_same_outside.
  - destruct (passes _ _ _ _) as [d' c].
    pose proof (alias_same_outside k parent key (VDict d')) as Ha.
    destruct c; cbn [fst]; auto.
    pose proof (items_loop_same_outside k (alias k parent key (VDict d')) key d' d') as Hi.
    destruct (items_loop _ _ _ _ _) as [p c]; cbn [fst] in *.
    eapply same_outside_trans; eauto.
Qed.

(** ** The passes over a mapping with a single entry *)

Lemma passes_single process_entry n name arg d' v' c :
  process_entry [(name, arg)] name arg = (d', v', c) ->
  dict_keys d' = [name] ->
  passes process_entry (S (S n)) [] [(name, arg)] = (d', c).
Proof.
  intros E K.
  cbn [passes dict_keys map fst keys_pass set_mem existsb dict_get].
  rewrite String.eqb_refl, E.
  destruct c; try reflexivity.
  cbn [negb]. rewrite K.
  cbn [keys_pass set_mem existsb]. rewrite String.eqb_refl.
  reflexivity.
Qed.

Lemma process_entry_single fuel name arg :
  exists arg' v' c,
    process_fragment fuel InDict [(name, arg)] name arg = ([(name, arg')], v', c).
Proof.
  pose proof (process_fragment_same_outside fuel InDict [(name, arg)] name arg) as H.
  destruct (process_fragment fuel InDict [(name, arg)] name arg) as [[d' v'] c].
  simpl in H. destruct H as [K _].
  specialize (K (or_introl eq_refl)).
  destruct d' as [|[k1 a1] [|x d']]; try discriminate.
  injection K as ->. eauto.
Qed.

(** The children of a single-entry mapping: the entry keeps its key. *)
Lemma passes_call fuel name arg :
  exists arg' c,
    passes (process_fragment fuel InDict) MAX_RECURSION [] [(name, arg)]
    = ([(name, arg')], c).
Proof.
  destruct (process_entry_single fuel name arg) as (arg' & v' & c & E).
  exists arg', c.
  change MAX_RECURSION with (S (S 14)).
  eapply passes_single; [exact E|reflexivity].
Qed.

(** ** The function call of a mapping *)

Lemma items_loop_malformed k parent key fragment items :
  length fragment <> 1 ->
  (exists name, In name (dict_keys items) /\ startswith name "Turing::" = true) ->
  exists name,
    In name (dict_keys items) /\ startswith name "Turing::" = true
    /\ items_loop k parent key fragment items
       = (parent, Raised (malformed_call_error name)).
Proof.
  intros Hlen. induction items as [|[name v] items IH]; intros (n & Hin & Hp).
  - destruct Hin.
  - cbn [items_loop].
    destruct (startswith name "Turing::") eqn:E.
    + exists name. split; [left; reflexivity|]. split; [exact E|].
      apply Nat.eqb_neq in Hlen. rewrite Hlen. reflexivity.
    + destruct Hin as [Hin|Hin]; [simpl in Hin; congruence|].
      destruct IH as (n' & Hin' & Hp' & E'); [eauto|].
      exists n'. split; [right; exact Hin'|]. auto.
Qed.

(** C7.  A mapping that, once its children are resolved, holds a key with
    the reserved prefix next to other entries makes [process_fragment]
    raise the "must be the only element" [ValueError], wherever the
    prefixed entry stands. *)
Theorem malformed_call fuel k (parent : container k) (key : index k)
  (d d' : dict value) :
  passes (process_fragment fuel InDict) MAX_RECURSION [] d = (d', Returned) ->
  (exists name, In name (dict_keys d') /\ startswith name "Turing::" = true) ->
  2 <= length d' ->
  exists name,
    In name (dict_keys d') /\ startswith name "Turing::" = true
    /\ process_fragment (S fuel) k parent key (VDict d)
       = (alias k parent key (VDict d'), VDict d',
          Raised (malformed_call_error name)).
Proof.
  intros Hp Hex Hlen.
  destruct (@items_loop_malformed k (alias k parent key (VDict d')) key d' d')
    as (name & Hin & Hpre & E); [lia|exact Hex|].
  exists name. split; [exact Hin|]. split; [exact Hpre|].
  cbn [process_fragment]. rewrite Hp, E. reflexivity.
Qed.

Lemma malformed_call_witness :
  exists name,
    In name ["a"; "Turing::Splice"] /\ startswith name "Turing::" = true
    /\ process_fragment 3 Root tt tt
         (VDict [("a", VInt 1); ("Turing::Splice", VList [])])
       = (tt, VDict [("a", VInt 1); ("Turing::Splice", VList [])],
          Raised (malformed_call_error name)).
Proof.
  apply (@malformed_call 2 Root tt tt
           [("a", VInt 1); ("Turing::Splice", VList [])]
           [("a", VInt 1); ("Turing::Splice", VList [])]).
  - reflexivity.
  - exists "Turing::Splice". split; [simpl; auto|reflexivity].
  - simpl; lia.
Defined.

(** ** The passes over the keys of a mapping *)

Section PassesProperties.
Variable process_entry
  : dict value -> string -> value -> dict value * value * completion.


Lemma keys_pass_seen_all fragment_keys new seen d new' seen' d' :
  keys_pass process_entry fragment_keys new seen d
  = (new', seen', d', Returned) ->
  (forall k, set_mem k seen = true -> set_mem k seen' = true)
  /\ forall k, In k fragment_keys -> set_mem k seen' = true.
Proof.
  revert new seen d.
  induction fragment_keys as [|k ks IH]; intros new seen d; cbn [keys_pass].
  - intros [= _ <- _]. split; [auto|intros k []].
  - destruct (set_mem k seen) eqn:E.
    + intros H. destruct (IH _ _ _ H) as [Hmono Hall].
      split; [exact Hmono|]. intros k' [<-|Hin]; auto.
    + destruct (dict_get d k) as [child|]; [|discriminate].
      destruct (process_entry d k child) as [[d1 v1] c].
      destruct c; try discriminate.
      intros H. destruct (IH _ _ _ H) as [Hmono Hall].
      assert (Hk : set_mem k (k :: seen) = true)
        by (cbn [set_mem existsb]; now rewrite String.eqb_refl).
      split.
      * intros k' Hk'. apply Hmono. cbn [set_mem existsb].
        fold (set_mem k' seen). rewrite Hk'. apply orb_true_r.
      * intros k' [<-|Hin]; auto.
Qed.





End PassesProperties.


Example mapping_passes_error_reached :
  passes (fun d k v => (dict_set d (k ++ "+")%string VNone, v, Returned))
    MAX_RECURSION [] [("a", VNone)]
  = ([("a", VNone); ("a+", VNone); ("a++", VNone); ("a+++", VNone);
      ("a++++", VNone); ("a+++++", VNone); ("a++++++", VNone);
      ("a+++++++", VNone); ("a++++++++", VNone); ("a+++++++++", VNone);
      ("a++++++++++", VNone); ("a+++++++++++", VNone);
      ("a++++++++++++", VNone); ("a+++++++++++++", VNone);
      ("a++++++++++++++", VNone); ("a+++++++++++++++", VNone);
      ("a++++++++++++++++", VNone)],
     Raised convergence_error).
Proof. vm_compute. reflexivity. Qed.

(** ** Unfolding [process_fragment] *)

Lemma process_fragment_dict fuel k parent key d :
  process_fragment (S fuel) k parent key (VDict d)
  = let '(d', c) := passes (process_fragment fuel InDict) MAX_RECURSION [] d in
    match c with
    | Returned =>
        let '(parent', c') :=
          items_loop k (alias k parent key (VDict d')) key d' d' in
        (parent', VDict d', c')
    | _ => (alias k parent key (VDict d'), VDict d', c)
    end.
Proof.
  cbn [process_fragment].
  destruct (passes _ _ _ _) as [d' c]. destruct c; reflexivity.
Qed.

Lemma process_fragment_list fuel k parent key l :
  process_fragment (S fuel) k parent key (VList l)
  = let '(l', c) := enumerate_loop (process_fragment fuel InList) fuel l 0 in
    (alias k parent key (VList l'), VList l', c).
Proof. reflexivity. Qed.

(** A registered function is called once the children of its call node are
    resolved, and its completion is the completion of [process_fragment]. *)
Lemma process_fragment_call fuel k parent key name arg arg' (f : handler) :
  dict_get functions name = Some f ->
  passes (process_fragment fuel InDict) MAX_RECURSION [] [(name, arg)]
  = ([(name, arg')], Returned) ->
  process_fragment (S fuel) k parent key (call name arg)
  = let '(parent', c) := f k (alias k parent key (call name arg')) key arg' in
    (parent', call name arg', c).
Proof.
  intros Hf Hp. unfold call. rewrite process_fragment_dict, Hp.
  cbn [items_loop length Nat.eqb negb].
  assert (Hpre : startswith name "Turing::" = true).
  { apply functions_cases in Hf as [[-> _]|[[-> | ->] _]]; reflexivity. }
  rewrite Hpre, Hf.
  destruct (f k _ key arg') as [p c]. destruct c; reflexivity.
Qed.

(** The children of a call node whose argument is a list. *)
Lemma passes_list_argument fuel name args args' c :
  enumerate_loop (process_fragment fuel InList) fuel args 0 = (args', c) ->
  passes (process_fragment (S fuel) InDict) MAX_RECURSION [] [(name, VList args)]
  = ([(name, VList args')], c).
Proof.
  intros H. change MAX_RECURSION with (S (S 14)).
  eapply passes_single with (v' := VList args'); [|reflexivity].
  rewrite process_fragment_list, H.
  cbn [alias dict_set]. now rewrite String.eqb_refl.
Qed.

(** ** The walk over a sequence *)

Section EnumerateProperties.
Variable process_item
  : list value -> nat -> value -> list value * value * completion.
Hypothesis process_item_outside :
  forall l i v, same_outside InList l i (fst (fst (process_item l i v))).

(** The walk never touches what lies before its index. *)
Lemma enumerate_loop_prefix steps l i :
  firstn i (fst (enumerate_loop process_item steps l i)) = firstn i l.
Proof.
  revert l i; induction steps as [|steps IH]; intros l i;
    cbn [enumerate_loop]; [reflexivity|].
  destruct (nth_error l i) as [item|] eqn:E; [|reflexivity].
  assert (Hi : i < length l) by (apply nth_error_Some; congruence).
  pose proof (@process_item_outside l i item) as Ho.
  destruct (process_item l i item) as [[l1 v1] c].
  cbn [fst same_outside] in Ho. specialize (Ho (Nat.lt_le_incl _ _ Hi)).
  destruct c; cbn [fst]; auto.
  specialize (IH l1 (i + 1)).
  apply (f_equal (firstn i)) in IH.
  rewrite !firstn_firstn in IH.
  replace (Nat.min i (i + 1)) with i in IH by lia.
  congruence.
Qed.
End EnumerateProperties.

Section KeysProperties.
Variable process_entry
  : dict value -> string -> value -> dict value * value * completion.
Hypothesis process_entry_outside :
  forall d k v, same_outside InDict d k (fst (fst (process_entry d k v))).



End KeysProperties.

(** ** Splice during the walk of a sequence *)

Lemma splice_call_resolved fuel l i args args' :
  enumerate_loop (process_fragment fuel InList) fuel args 0 = (args', Returned) ->
  process_fragment (S (S fuel)) InList l i (call "Turing::Splice" (VList args))
  = (firstn i l ++ args' ++ skipn (i + 1) l,
     call "Turing::Splice" (VList args'), Returned).
Proof.
  intros H.
  rewrite (@process_fragment_call (S fuel) InList l i "Turing::Splice"
             (VList args) (VList args') splice);
    [|reflexivity|now apply passes_list_argument].
  cbn [alias]. rewrite splice_list, firstn_list_set, skipn_list_set.
  reflexivity.
Qed.

Lemma nth_error_inserted (l args : list value) i j :
  i <= length l ->
  nth_error (firstn i l ++ args ++ skipn (i + 1) l) (i + j)
  = if j <? length args then nth_error args j
    else nth_error l (i + 1 + (j - length args)).
Proof.
  intros Hi.
  assert (Hf : length (firstn i l) = i) by (rewrite length_firstn; lia).
  rewrite nth_error_app2 by lia.
  replace (i + j - length (firstn i l)) with j by lia.
  destruct (Nat.ltb_spec j (length args)).
  - now rewrite nth_error_app1.
  - rewrite nth_error_app2 by lia. now rewrite nth_error_skipn.
Qed.

(** The step of a Splice call, whatever its argument is, once the argument
    has resolved to a list. *)
Lemma splice_call_dispatch fuel l i arg args' v' :
  process_fragment fuel InDict [("Turing::Splice", arg)] "Turing::Splice" arg
  = ([("Turing::Splice", VList args')], v', Returned) ->
  process_fragment (S fuel) InList l i (call "Turing::Splice" arg)
  = (firstn i l ++ args' ++ skipn (i + 1) l,
     call "Turing::Splice" (VList args'), Returned).
Proof.
  intros H0.
  assert (H : passes (process_fragment fuel InDict) MAX_RECURSION []
                [("Turing::Splice", arg)]
              = ([("Turing::Splice", VList args')], Returned)).
  { change MAX_RECURSION with (S (S 14)).
    eapply passes_single; [exact H0|reflexivity]. }
  rewrite (@process_fragment_call fuel InList l i "Turing::Splice"
             arg (VList args') splice eq_refl H).
  cbn [alias]. rewrite splice_list, firstn_list_set, skipn_list_set.
  reflexivity.
Qed.

Lemma enumerate_loop_step process_item steps l i :
  enumerate_loop process_item (S steps) l i
  = match nth_error l i with
    | None => (l, Returned)
    | Some item =>
        match process_item l i item with
        | (l2, _, Returned) => enumerate_loop process_item steps l2 (i + 1)
        | (l2, _, c) => (l2, c)
        end
    end.
Proof.
  cbn [enumerate_loop]. destruct (nth_error l i) as [item|]; [|reflexivity].
  destruct (process_item l i item) as [[l2 v2] c]. destruct c; reflexivity.
Qed.

(** C1, amended.  When the element at index [i] of the sequence being
    walked is a Splice call whose argument, once resolved in the mapping
    of the call, is the list [args'] (the argument may be a list as
    written, a ForEach call, ...), the step replaces that one element by
    the elements of [args'], in order, and the walk goes on at index
    [i + 1] of the new sequence, where it fetches and resolves whatever
    stands there.  That index holds the second inserted element when
    there are two or more, the old neighbour when there is one, and the
    element that was at [i + 2] when there is none.  What the step left
    at index [i] (the first inserted element, or the old neighbour when
    nothing is inserted) is not fetched by this walk and is still there
    when the walk ends.  Nothing more is said about the later inserted
    elements: the walk goes on from [i + 1] by the same rule. *)
Theorem splice_walk fuel steps (l : list value) (i : nat) (arg v' : value)
  (args' : list value) :
  nth_error l i = Some (call "Turing::Splice" arg) ->
  process_fragment fuel InDict [("Turing::Splice", arg)] "Turing::Splice" arg
  = ([("Turing::Splice", VList args')], v', Returned) ->
  let l' := firstn i l ++ args' ++ skipn (i + 1) l in
  process_fragment (S fuel) InList l i (call "Turing::Splice" arg)
  = (l', call "Turing::Splice" (VList args'), Returned)
  /\ enumerate_loop (process_fragment (S fuel) InList) (S steps) l i
     = enumerate_loop (process_fragment (S fuel) InList) steps l' (i + 1)
  /\ enumerate_loop (process_fragment (S fuel) InList) (S (S steps)) l i
     = match nth_error l' (i + 1) with
       | None => (l', Returned)
       | Some item =>
           match process_fragment (S fuel) InList l' (i + 1) item with
           | (l2, _, Returned) =>
               enumerate_loop (process_fragment (S fuel) InList) steps l2
                 (i + 1 + 1)
           | (l2, _, c) => (l2, c)
           end
       end
  /\ firstn (i + 1)
       (fst (enumerate_loop (process_fragment (S fuel) InList) (S steps) l i))
     = firstn (i + 1) l'
  /\ length l' + 1 = length l + length args'
  /\ firstn i l' = firstn i l
  /\ firstn (length args') (skipn i l') = args'
  /\ skipn (i + length args') l' = skipn (i + 1) l
  /\ nth_error l' (i + 1)
     = match args' with
       | [] => nth_error l (i + 2)
       | [_] => nth_error l (i + 1)
       | _ :: second :: _ => Some second
       end.
Proof.
  intros Hnth Hargs l'.
  assert (Hi : i < length l) by (apply nth_error_Some; congruence).
  assert (Hf : length (firstn i l) = i) by (rewrite length_firstn; lia).
  assert (Hstep : enumerate_loop (process_fragment (S fuel) InList) (S steps) l i
                  = enumerate_loop (process_fragment (S fuel) InList) steps l'
                      (i + 1)).
  { cbn [enumerate_loop]. rewrite Hnth.
    rewrite (@splice_call_dispatch fuel l i arg args' v' Hargs). reflexivity. }
  split.
  { now apply splice_call_dispatch with (v' := v'). }
  split; [exact Hstep|].
  split.
  { cbn [enumerate_loop] in *. rewrite Hnth in *.
    rewrite (@splice_call_dispatch fuel l i arg args' v' Hargs).
    fold l'. destruct (nth_error l' (i + 1)) as [item|]; [|reflexivity].
    destruct (process_fragment (S fuel) InList l' (i + 1) item) as [[l2 v2] c].
    destruct c; reflexivity. }
  split.
  { rewrite Hstep. apply enumerate_loop_prefix.
    intros l0 i0 v. apply process_fragment_same_outside. }
  split.
  { subst l'. now apply splice_list_length. }
  split.
  { subst l'. rewrite firstn_app, Hf, firstn_firstn, Nat.min_id, Nat.sub_diag.
    cbn [firstn]. apply app_nil_r. }
  split.
  { subst l'. rewrite skipn_app, Hf, Nat.sub_diag, skipn_firstn_comm, Nat.sub_diag.
    cbn [firstn skipn app].
    rewrite firstn_app, firstn_all, Nat.sub_diag. cbn [firstn]. apply app_nil_r. }
  split.
  { subst l'. rewrite skipn_app, Hf.
    replace (i + length args' - i) with (length args') by lia.
    rewrite skipn_all2 by (rewrite length_firstn; lia).
    rewrite skipn_app, skipn_all, Nat.sub_diag. reflexivity. }
  subst l'. rewrite nth_error_inserted by lia.
  destruct args' as [|a [|b args']]; cbn [length Nat.ltb Nat.leb nth_error].
  - f_equal. lia.
  - f_equal. lia.
  - reflexivity.
Qed.

(** The argument of the Splice is the result of a ForEach: two elements
    are inserted, and the walk's next element is the second of them. *)
Lemma splice_walk_witness :
  let each :=
    call "Turing::ForEach"
      (for_each_argument [("x", [VInt 1; VInt 2])] (VStr "v${x}")) in
  let l := [call "Turing::Splice" each; VStr "e"] in
  let l' := [VStr "v1"; VStr "v2"; VStr "e"] in
  process_fragment 11 InList l 0 (call "Turing::Splice" each)
  = (l', call "Turing::Splice" (VList [VStr "v1"; VStr "v2"]), Returned)
  /\ enumerate_loop (process_fragment 11 InList) 3 l 0
     = enumerate_loop (process_fragment 11 InList) 2 l' 1
  /\ enumerate_loop (process_fragment 11 InList) 4 l 0
     = match process_fragment 11 InList l' 1 (VStr "v2") with
       | (l2, _, Returned) => enumerate_loop (process_fragment 11 InList) 2 l2 2
       | (l2, _, c) => (l2, c)
       end
  /\ firstn 1 (fst (enumerate_loop (process_fragment 11 InList) 3 l 0))
     = [VStr "v1"]
  /\ length l' + 1 = length l + 2
  /\ firstn 0 l' = firstn 0 l
  /\ firstn 2 (skipn 0 l') = [VStr "v1"; VStr "v2"]
  /\ skipn 2 l' = skipn 1 l
  /\ nth_error l' 1 = Some (VStr "v2").
Proof.
  intros each l l'.
  apply (@splice_walk 10 2 l 0 each each [VStr "v1"; VStr "v2"]); reflexivity.
Defined.

(** ** The output of a function and the walk *)



(** C1 as first stated does not hold.  After a Splice of no element the
    walk does not continue at the element that slid into the position of
    the call: that element, here another call, is passed over and stays
    unresolved.  And an element inserted after the first can be resolved
    by the same walk: the argument of the third sequence resolves to
    ["a", {Splice: ["x"]}], and its second element is dispatched once it
    has been spliced in.  Not every inserted element is: the argument of
    the fourth resolves to ["a", {Splice: []}, {Splice: ["x"]}], whose
    second element is dispatched and whose third is never fetched. *)
Lemma splice_walk_counterexample :
  let slid := call "Turing::Splice" (VList [VStr "x"]) in
  let empty := call "Turing::Splice" (VList []) in
  enumerate_loop (process_fragment 4 InList) 4 [empty; slid] 0
  = ([slid], Returned)
  /\ enumerate_loop (process_fragment 4 InList) 4 [VStr "a"; empty; slid] 0
     = ([VStr "a"; slid], Returned)
  /\ enumerate_loop (process_fragment 6 InList) 6
       [call "Turing::Splice" (VList [VStr "a"; empty; slid])] 0
     = ([VStr "a"; VStr "x"], Returned)
  /\ enumerate_loop (process_fragment 8 InList) 8
       [call "Turing::Splice" (VList [VStr "a"; empty; empty; empty; slid])] 0
     = ([VStr "a"; slid], Returned).
Proof. repeat split; vm_compute; reflexivity. Qed.


(** ** Interpolation depends on the binding through its lookups only *)

Lemma pattern_sub_ext b1 b2 template skip :
  (forall name, dict_get b1 name = dict_get b2 name) ->
  pattern_sub b1 template skip = pattern_sub b2 template skip.
Proof.
  intros H. revert skip.
  induction template as [|c rest IH]; intros skip; cbn [pattern_sub].
  - reflexivity.
  - destruct skip as [|skip]; [|apply IH].
    destruct (Ascii.eqb c "$"); [|now rewrite IH].
    destruct (pattern_match rest) as [mo len].
    rewrite IH. f_equal.
    destruct mo; cbn [convert]; try rewrite H; reflexivity.
Qed.

Lemma safe_substitute_ext b1 b2 template :
  (forall name, dict_get b1 name = dict_get b2 name) ->
  safe_substitute template b1 = safe_substitute template b2.
Proof. intros H. now apply pattern_sub_ext. Qed.

Lemma json_string_sub_ext b1 b2 body :
  (forall name, dict_get b1 name = dict_get b2 name) ->
  json_string_sub body b1 = json_string_sub body b2.
Proof.
  intros H.
  induction body as [| | | |s|l IH|d IH] using value_ind;
    cbn [json_string_sub]; try reflexivity.
  - now rewrite (@safe_substitute_ext b1 b2 s H).
  - f_equal. apply map_ext_in. intros v Hv.
    rewrite Forall_forall in IH. now apply IH.
  - f_equal. generalize (@nil (string * value)) as acc.
    induction IH as [|[k v] d Hv _ IHd]; intros acc; cbn [fold_left].
    + reflexivity.
    + cbn [fst snd] in *.
      rewrite Hv, (@safe_substitute_ext b1 b2 k H). apply IHd.
Qed.

Lemma binding_agrees_lookup names combination b1 b2 :
  binding_agrees names combination b1 ->
  binding_agrees names combination b2 ->
  forall name, dict_get b1 name = dict_get b2 name.
Proof.
  intros [H1 N1] [H2 N2] name.
  destruct (in_dec string_dec name names) as [Hin|Hn].
  - apply (In_nth _ _ "") in Hin as (j & Hj & <-).
    now rewrite H1, H2.
  - now rewrite N1, N2.
Qed.

(** ** Bindings built afresh *)

Lemma fold_binding_get names :
  NoDup names ->
  forall combination acc,
    length combination = length names ->
    let b := fold_left (fun acc nv => dict_set acc (fst nv) (snd nv))
               (combine names combination) acc in
    (forall j, j < length names ->
               dict_get b (nth j names "") = Some (nth j combination ""))
    /\ forall name, ~ In name names -> dict_get b name = dict_get acc name.
Proof.
  induction 1 as [|n names Hn Hnd IH]; intros combination acc Hlen b.
  - split; [cbn [length]; intros j Hj; lia|reflexivity].
  - destruct combination as [|c combination]; [discriminate|].
    cbn [length] in Hlen. injection Hlen as Hlen.
    subst b. cbn [combine fold_left fst snd].
    destruct (IH combination (dict_set acc n c) Hlen) as [Hpos Hother].
    split.
    + intros [|j] Hj; cbn [nth].
      * rewrite Hother by exact Hn. apply dict_get_set_same.
      * apply Hpos. cbn [length] in Hj. lia.
    + intros name Hname. rewrite Hother.
      * apply dict_get_set_other. intros ->. apply Hname. now left.
      * intros Hin. apply Hname. now right.
Qed.

Lemma fresh_binding_agrees names combination :
  NoDup names -> length combination = length names ->
  binding_agrees names combination (fresh_binding names combination).
Proof.
  intros Hnd Hlen.
  destruct (@fold_binding_get names Hnd combination [] Hlen) as [Hpos Hother].
  split; [exact Hpos|]. intros name Hname. now rewrite Hother.
Qed.

(** ** The odometer *)

Lemma list_set_middle A (p s : list A) x y :
  list_set (p ++ x :: s) (length p) y = p ++ y :: s.
Proof. induction p as [|a p IH]; cbn; [reflexivity|now rewrite IH]. Qed.

Lemma nth_list_set_same A (l : list A) i v d :
  i < length l -> nth i (list_set l i v) d = v.
Proof.
  revert i; induction l as [|x l IH]; intros [|i] H; cbn in *; try lia; auto.
  apply IH; lia.
Qed.

Lemma nth_list_set_other A (l : list A) i j v d :
  i <> j -> nth j (list_set l i v) d = nth j l d.
Proof.
  revert i j; induction l as [|x l IH]; intros [|i] [|j] H; cbn; auto; try lia.
Qed.

Lemma next_index_length dims idx idx' :
  next_index dims idx = Some idx' -> length idx = length dims ->
  length idx' = length dims.
Proof.
  revert idx idx'; induction dims as [|d dims IH]; intros [|x idx] idx';
    cbn [next_index length]; try discriminate.
  destruct (next_index dims idx) as [i2|] eqn:E.
  - intros [= <-] [= H]. cbn [length]. f_equal. eapply IH; eauto.
  - destruct (x + 1 <? d); [|discriminate].
    intros [= <-] _. cbn [length]. now rewrite repeat_length.
Qed.

Section Odometer.
Variable var_names : list string.
Variable var_values : list (list string).

(** The loop over the positions, from the last one down, follows
    [next_index]: the positions of [s] are tried first; when they are
    exhausted they are back at 0 and the loop goes on into [p]. *)
Lemma next_combination_next_index ds :
  forall dp p s current_values,
    length p = length dp -> length s = length ds ->
    exists current_values',
      match next_index ds s with
      | Some s' =>
          next_combination var_names var_values (dp ++ ds) (length p + length s) (p ++ s) current_values
          = (p ++ s', current_values', true)
      | None =>
          next_combination var_names var_values (dp ++ ds) (length p + length s) (p ++ s) current_values
          = next_combination var_names var_values (dp ++ ds) (length p) (p ++ repeat 0 (length s))
              current_values'
      end.
Proof.
  induction ds as [|d ds IH]; intros dp p s cur Hp Hs.
  - destruct s; [|discriminate]. exists cur.
    cbn [next_index length repeat]. now rewrite Nat.add_0_r.
  - destruct s as [|x s]; [discriminate|].
    cbn [length] in Hs. injection Hs as Hs.
    destruct (IH (dp ++ [d]) (p ++ [x]) s cur) as [cur1 H1].
    { rewrite !length_app. cbn [length]. lia. }
    { exact Hs. }
    rewrite <- !app_assoc in H1. cbn [app] in H1.
    rewrite length_app in H1. cbn [length] in H1.
    replace (length p + 1 + length s) with (length p + S (length s)) in H1 by lia.
    cbn [next_index length].
    destruct (next_index ds s) as [s'|].
    + exists cur1. rewrite H1, <- app_assoc. reflexivity.
    + replace (length p + 1) with (S (length p)) in H1 by lia.
      cbn [next_combination] in H1.
      rewrite nth_middle in H1.
      rewrite Hp, nth_middle, <- Hp in H1.
      rewrite !list_set_middle in H1.
      destruct (x + 1 <? d).
      * eexists. rewrite H1, Hs. reflexivity.
      * eexists. rewrite H1. reflexivity.
Qed.

Lemma next_combination_top dims idx current_values :
  length idx = length dims ->
  exists current_values',
    next_combination var_names var_values dims (length idx) idx current_values
    = match next_index dims idx with
      | Some idx' => (idx', current_values', true)
      | None => (repeat 0 (length idx), current_values', false)
      end.
Proof.
  intros H.
  destruct (@next_combination_next_index dims [] [] idx current_values eq_refl H)
    as [cur' E].
  exists cur'. cbn [app length Nat.add] in E.
  destruct (next_index dims idx); exact E.
Qed.

Hypothesis names_nodup : NoDup var_names.
Hypothesis values_length : length var_values = length var_names.

Lemma select_length idx :
  length idx = length var_names -> length (select var_values idx) = length var_names.
Proof.
  rewrite <- values_length. clear.
  revert idx; induction var_values as [|v vs IH]; intros [|x idx] H;
    cbn in *; try discriminate; auto.
Qed.

Lemma select_list_set idx i x :
  select var_values (list_set idx i x)
  = list_set (select var_values idx) i (nth x (nth i var_values []) "").
Proof.
  clear. revert idx i.
  induction var_values as [|v vs IH]; intros [|y idx] [|i]; cbn; auto.
  now rewrite IH.
Qed.

Lemma binding_agrees_set combination current_values i v :
  length combination = length var_names -> i < length var_names ->
  binding_agrees var_names combination current_values ->
  binding_agrees var_names (list_set combination i v)
    (dict_set current_values (nth i var_names "") v).
Proof.
  intros Hlen Hi [Hpos Hother]. split.
  - intros j Hj. destruct (Nat.eq_dec i j) as [<-|Hne].
    + rewrite dict_get_set_same, nth_list_set_same; [reflexivity|lia].
    + rewrite dict_get_set_other, nth_list_set_other; auto.
      intros Heq. apply Hne.
      eapply (proj1 (NoDup_nth var_names "")); eauto.
  - intros name Hname. rewrite dict_get_set_other; auto.
    intros <-. apply Hname. now apply nth_In.
Qed.

(** The binding follows the indexes through the loop. *)
Lemma next_combination_agrees dims i :
  forall idx current_values,
    i <= length var_names -> length idx = length var_names ->
    binding_agrees var_names (select var_values idx) current_values ->
    let '(idx', current_values', _) := next_combination var_names var_values dims i idx current_values in
    length idx' = length var_names
    /\ binding_agrees var_names (select var_values idx') current_values'.
Proof.
    induction i as [|i IH]; intros idx cur Hi Hlen Hag; cbn [next_combination].
  - auto.
  - destruct (nth i idx 0 + 1 <? nth i dims 0).
    + split; [now rewrite list_set_length|].
      rewrite select_list_set.
      apply binding_agrees_set; auto. now apply select_length.
    + apply IH; [lia|now rewrite list_set_length|].
      rewrite select_list_set.
      apply binding_agrees_set; auto. now apply select_length.
Qed.
End Odometer.

(** ** The index vectors in odometer order *)

Lemma all_indexes_length dims : length (all_indexes dims) = product dims.
Proof.
  induction dims as [|d dims IH]; cbn [all_indexes product fold_right];
    [reflexivity|].
  fold (product dims). rewrite <- IH.
  generalize 0 as start.
  induction d as [|d IHd]; intros start; cbn [seq flat_map]; [reflexivity|].
  rewrite length_app, length_map, IHd. reflexivity.
Qed.

Lemma indexes_from_zeros dims :
  Forall (fun d => 0 < d) dims ->
  indexes_from dims (repeat 0 (length dims)) = all_indexes dims.
Proof.
  induction 1 as [|d dims Hd _ IH]; cbn [indexes_from all_indexes repeat length];
    [reflexivity|].
  rewrite IH. destruct d as [|d]; [lia|].
  cbn [seq flat_map Nat.add].
  replace (S d - 1) with d by lia. reflexivity.
Qed.

Lemma indexes_from_next dims :
  Forall (fun d => 0 < d) dims ->
  forall idx,
    length idx = length dims ->
    indexes_from dims idx
    = idx :: match next_index dims idx with
             | Some idx' => indexes_from dims idx'
             | None => []
             end.
Proof.
  induction 1 as [|d dims Hd Hpos IH]; intros [|x idx] Hlen;
    try discriminate; [reflexivity|].
  cbn [length] in Hlen. injection Hlen as Hlen.
  cbn [indexes_from next_index].
  rewrite (IH idx Hlen).
  destruct (next_index dims idx) as [idx'|].
  - reflexivity.
  - cbn [map app].
    destruct (Nat.ltb_spec (x + 1) d) as [Hlt|Hge].
    + f_equal. cbn [indexes_from].
      rewrite indexes_from_zeros by assumption.
      replace (d - (x + 1)) with (S (d - (x + 1 + 1))) by lia.
      cbn [seq flat_map]. repeat f_equal; lia.
    + replace (d - (x + 1)) with 0 by lia. reflexivity.
Qed.

Lemma map_nth_seq (values : list string) :
  map (fun y => nth y values "") (seq 0 (length values)) = values.
Proof.
  induction values as [|v values IH]; cbn [length seq map nth]; [reflexivity|].
  f_equal. rewrite <- seq_shift, map_map. exact IH.
Qed.

Lemma select_flat_map values rest (tails : list (list nat)) (ys : list nat) :
  map (select (values :: rest)) (flat_map (fun y => map (cons y) tails) ys)
  = flat_map (fun v => map (cons v) (map (select rest) tails))
      (map (fun y => nth y values "") ys).
Proof.
  induction ys as [|y ys IH]; cbn [flat_map map]; [reflexivity|].
  rewrite map_app, IH. f_equal.
  rewrite !map_map. reflexivity.
Qed.

Lemma select_all_indexes var_values :
  map (select var_values) (all_indexes (map (@length string) var_values))
  = combinations var_values.
Proof.
  induction var_values as [|values rest IH];
    cbn [map all_indexes combinations]; [reflexivity|].
  now rewrite select_flat_map, map_nth_seq, IH.
Qed.

Lemma combinations_length var_values :
  length (combinations var_values) = product (map (@length string) var_values).
Proof.
  rewrite <- select_all_indexes, length_map. apply all_indexes_length.
Qed.

Lemma starting_values_fresh var_names var_values :
  length var_values = length var_names ->
  starting_values var_names var_values
  = fresh_binding var_names
      (select var_values (repeat 0 (length var_names))).
Proof.
  unfold starting_values, fresh_binding.
  generalize (@nil (string * string)) as acc.
  revert var_values.
  induction var_names as [|n names IH]; intros [|v vals] acc Hlen;
    try discriminate; [reflexivity|].
  cbn [length] in Hlen. injection Hlen as Hlen.
  cbn [length seq repeat select combine fold_left fst snd nth].
  rewrite <- seq_shift, <- (IH vals _ Hlen).
  generalize (dict_set acc n (nth 0 v "")) as acc'.
  generalize (seq 0 (length names)) as js.
  induction js as [|j js IHj]; intros acc'; cbn [map fold_left]; [reflexivity|].
  apply IHj.
Qed.

(** ** The [while True] loop of [for_each] *)

Section CombinationsLoop.
Variable body : value.
Variable var_names : list string.
Variable var_values : list (list string).

Hypothesis values_length : length var_values = length var_names.
Hypothesis values_nonempty : Forall (fun d => 0 < d) (map (@length string) var_values).

Lemma dims_length : length (map (@length string) var_values) = length var_names.
Proof. now rewrite length_map. Qed.

(** The loop ends by itself within as many iterations as there are
    index vectors left. *)
Lemma combinations_loop_total fuel :
  forall idx current_values result,
    length idx = length var_names ->
    length (indexes_from (map (@length string) var_values) idx) <= fuel ->
    exists outputs,
      combinations_loop fuel body var_names var_values (map (@length string) var_values) idx
        current_values result = Some (result ++ outputs)
      /\ length outputs = length (indexes_from (map (@length string) var_values) idx).
Proof.
  induction fuel as [|fuel IH]; intros idx cur result Hlen Hfuel.
  - rewrite indexes_from_next in Hfuel;
      [cbn [length] in Hfuel; lia|assumption|now rewrite dims_length].
  - cbn [combinations_loop].
    assert (Hd : length idx = length (map (@length string) var_values)) by now rewrite dims_length.
    destruct (@next_combination_top var_names var_values (map (@length string) var_values) idx
                (cur) Hd) as [cur' E].
    rewrite <- Hlen, E.
    rewrite (indexes_from_next values_nonempty idx Hd) in Hfuel |- *.
    destruct (next_index (map (@length string) var_values) idx) as [idx'|] eqn:En.
    + assert (Hlen' : length idx' = length var_names).
      { rewrite <- dims_length. eapply next_index_length; eauto. }
      cbn [length] in Hfuel.
      destruct (IH idx' cur' (result ++ [json_string_sub body cur]) Hlen')
        as (outputs & Eo & Lo); [lia|].
      exists (json_string_sub body cur :: outputs).
      rewrite Eo, <- app_assoc. cbn [length app]. auto.
    + exists [json_string_sub body cur]. auto.
Qed.

Hypothesis names_nodup : NoDup var_names.

(** With distinct names, every output is the body interpolated with the
    binding of its index vector. *)
Lemma combinations_loop_outputs fuel :
  forall idx current_values result,
    length idx = length var_names ->
    binding_agrees var_names (select var_values idx) current_values ->
    length (indexes_from (map (@length string) var_values) idx) <= fuel ->
    combinations_loop fuel body var_names var_values (map (@length string) var_values) idx
      current_values result
    = Some (result
            ++ map (fun ix =>
                      json_string_sub body
                        (fresh_binding var_names (select var_values ix)))
                 (indexes_from (map (@length string) var_values) idx)).
Proof.
  induction fuel as [|fuel IH]; intros idx cur result Hlen Hag Hfuel.
  - rewrite indexes_from_next in Hfuel;
      [cbn [length] in Hfuel; lia|assumption|now rewrite dims_length].
  - cbn [combinations_loop].
    assert (Hd : length idx = length (map (@length string) var_values)) by now rewrite dims_length.
    assert (Hsub : json_string_sub body cur
                   = json_string_sub body
                       (fresh_binding var_names (select var_values idx))).
    { apply json_string_sub_ext.
      apply (binding_agrees_lookup Hag).
      apply fresh_binding_agrees; [assumption|].
      now apply select_length. }
    pose proof (@next_combination_agrees var_names var_values names_nodup
                  values_length (map (@length string) var_values) (length var_names) idx cur
                  (Nat.le_refl _) Hlen Hag) as Hnext.
    destruct (@next_combination_top var_names var_values (map (@length string) var_values) idx
                (cur) Hd) as [cur' E].
    rewrite Hlen in E. rewrite E in Hnext. rewrite E.
    rewrite (indexes_from_next values_nonempty idx Hd) in Hfuel |- *.
    destruct (next_index (map (@length string) var_values) idx) as [idx'|] eqn:En.
    + destruct Hnext as [Hlen' Hag'].
      cbn [length] in Hfuel.
      rewrite (IH idx' cur' _ Hlen' Hag') by lia.
      rewrite <- app_assoc. cbn [map app]. now rewrite Hsub.
    + cbn [map]. now rewrite Hsub.
Qed.
End CombinationsLoop.

(** ** [for_each]: the result *)

Lemma no_empty_value_list (var_values : list (list string)) :
  existsb (fun values => length values =? 0) var_values = false ->
  Forall (fun d => 0 < d) (map (@length string) var_values).
Proof.
  induction var_values as [|values rest IH]; cbn [existsb map];
    [constructor|].
  intros H. apply orb_false_iff in H as [H1 H2].
  constructor; [|auto]. apply Nat.eqb_neq in H1. lia.
Qed.

Lemma spec_values_nonempty specs :
  Forall (fun spec : string * list value => snd spec <> []) specs ->
  existsb (fun values => length values =? 0) (spec_values specs) = false.
Proof.
  induction 1 as [|[name values] specs Hne _ IH]; cbn [spec_values map existsb];
    [reflexivity|].
  fold (spec_values specs). rewrite IH, orb_false_r.
  cbn [snd] in *. rewrite length_map.
  destruct values; [congruence|reflexivity].
Qed.

Lemma spec_values_lengths specs :
  map (@length string) (spec_values specs)
  = map (fun spec : string * list value => length (snd spec)) specs.
Proof.
  unfold spec_values. rewrite map_map. apply map_ext.
  intros spec. apply length_map.
Qed.

(** C2, amended.  When the variables have distinct names and every value
    list is non-empty, [for_each] assigns to [parent[key]] the list of the
    body interpolated with the binding of each combination, the
    combinations taken in odometer order (last variable fastest, first
    slowest); their number is the product of the lengths of the value
    lists. *)
Theorem for_each_combinations k (parent : container k) (key : index k)
  (specs : list (string * list value)) (body : value) :
  NoDup (spec_names specs) ->
  Forall (fun spec => snd spec <> []) specs ->
  for_each k parent key (for_each_argument specs body)
  = py_setitem k parent key
      (VList
         (map (fun combination =>
                 json_string_sub body
                   (fresh_binding (spec_names specs) combination))
            (combinations (spec_values specs))))
  /\ length (combinations (spec_values specs))
     = product (map (fun spec => length (snd spec)) specs).
Proof.
  intros Hnd Hne. split.
  - rewrite for_each_well_formed, (spec_values_nonempty Hne).
    assert (Hlen : length (spec_values specs) = length (spec_names specs))
      by now rewrite spec_values_length, spec_names_length.
    assert (Hpos := no_empty_value_list _ (spec_values_nonempty Hne)).
    assert (Hz : indexes_from (map (@length string) (spec_values specs))
                   (repeat 0 (length (spec_names specs)))
                 = all_indexes (map (@length string) (spec_values specs))).
    { rewrite <- Hlen, <- (length_map (@length string)).
      now apply indexes_from_zeros. }
    rewrite (@combinations_loop_outputs body (spec_names specs)
               (spec_values specs) Hlen Hpos Hnd).
    + rewrite Hz. cbn [app].
      rewrite <- select_all_indexes, map_map. reflexivity.
    + now rewrite repeat_length.
    + rewrite starting_values_fresh by assumption.
      apply fresh_binding_agrees; [assumption|].
      apply select_length; [assumption|apply repeat_length].
    + rewrite Hz. now rewrite all_indexes_length.
  - rewrite combinations_length. f_equal. apply spec_values_lengths.
Qed.

Lemma for_each_combinations_witness :
  for_each InList [VNone] 0
    (for_each_argument [("x", [VInt 1; VInt 2]); ("y", [VStr "a"; VStr "b"])]
       (VStr "${x}-${y}"))
  = ([VList [VStr "1-a"; VStr "1-b"; VStr "2-a"; VStr "2-b"]], Returned)
  /\ 4 = 2 * (2 * 1).
Proof.
  apply (@for_each_combinations InList [VNone] 0
           [("x", [VInt 1; VInt 2]); ("y", [VStr "a"; VStr "b"])]
           (VStr "${x}-${y}")).
  - repeat constructor; simpl; intuition discriminate.
  - repeat constructor; discriminate.
Defined.

(** C2 as first stated does not hold when two variables share a name: the
    one dictionary of current values is updated position by position, so
    the value bound to the shared name is that of whichever position was
    written last, not a function of the combination.  Neither rebuilding
    the binding in declaration order (which gives a, b, a, b) nor letting
    the first declaration win (1, 1, 2, 2) gives the list of the code. *)
Lemma for_each_combinations_counterexample :
  let specs := [("x", [VInt 1; VInt 2]); ("x", [VStr "a"; VStr "b"])] in
  let body := VStr "${x}" in
  for_each InList [VNone] 0 (for_each_argument specs body)
  = ([VList [VStr "a"; VStr "b"; VStr "2"; VStr "b"]], Returned)
  /\ map (fun combination =>
            json_string_sub body (fresh_binding (spec_names specs) combination))
       (combinations (spec_values specs))
     = [VStr "a"; VStr "b"; VStr "a"; VStr "b"]
  /\ map (fun combination =>
            json_string_sub body (combine (spec_names specs) combination))
       (combinations (spec_values specs))
     = [VStr "1"; VStr "1"; VStr "2"; VStr "2"].
Proof. repeat split; vm_compute; reflexivity. Qed.

(** ** [for_each] always completes *)

Lemma iteration_specs_loop_lengths fragment specs :
  forall names vals names' vals',
    iteration_specs_loop fragment specs names vals = inr (names', vals') ->
    length vals = length names -> length vals' = length names'.
Proof.
  induction specs as [|spec specs IH]; intros names vals names' vals';
    cbn [iteration_specs_loop].
  - intros [= <- <-]. auto.
  - destruct spec as [| | | | |spec|]; try discriminate.
    destruct spec as [|name [|values [|x spec]]]; try discriminate.
    destruct name; try discriminate.
    destruct values; try discriminate.
    intros H Hlen. apply (IH _ _ _ _ H).
    rewrite !length_app. cbn [length]. lia.
Qed.

Lemma py_setitem_completes k parent key v :
  snd (py_setitem k parent key v) <> OutOfFuel.
Proof.
  destruct k; cbn [py_setitem snd]; try discriminate.
  destruct (key <? length parent); discriminate.
Qed.

Lemma for_each_completes k (parent : container k) (key : index k) fragment :
  snd (for_each k parent key fragment) <> OutOfFuel.
Proof.
  unfold for_each.
  destruct fragment as [| | | | |items|]; try discriminate.
  destruct items as [|specs [|body [|x items]]]; try discriminate.
  destruct specs as [| | | | |specs|]; try discriminate.
  destruct (iteration_specs_loop _ specs [] []) as [e|[names vals]] eqn:E;
    [discriminate|].
  destruct (existsb _ vals) eqn:Ex; [apply py_setitem_completes|].
  assert (Hlen : length vals = length names)
    by (eapply iteration_specs_loop_lengths; eauto).
  destruct (@combinations_loop_total body names vals Hlen
              (no_empty_value_list _ Ex)
              (product (map (@length string) vals))
              (repeat 0 (length names))
              (starting_values names vals) [])
    as (outputs & Eo & _).
  - apply repeat_length.
  - rewrite <- Hlen, <- (length_map (@length string)).
    rewrite indexes_from_zeros by now apply no_empty_value_list.
    now rewrite all_indexes_length.
  - unfold product in Eo. rewrite Eo. apply py_setitem_completes.
Qed.

(** ** A function call at the root *)

Lemma iteration_specs_loop_error fragment specs :
  forall names vals e,
    iteration_specs_loop fragment specs names vals = inl e ->
    class_of e = TypeError \/ class_of e = ValueError.
Proof.
  induction specs as [|spec specs IH]; intros names vals e;
    cbn [iteration_specs_loop]; [discriminate|].
  destruct spec as [| | | | |spec|]; try (intros [= <-]; auto).
  destruct spec as [|name [|values [|x spec]]]; try (intros [= <-]; auto).
  destruct name; try (intros [= <-]; auto).
  destruct values; try (intros [= <-]; auto).
  apply IH.
Qed.

Lemma for_each_root fragment :
  exists e,
    for_each Root tt tt fragment = (tt, Raised e)
    /\ (class_of e = TypeError \/ class_of e = ValueError).
Proof.
  pose proof (@for_each_completes Root tt tt fragment) as Hc.
  unfold for_each in *.
  destruct fragment as [| | | | |items|]; try (eexists; split; [reflexivity|auto]).
  destruct items as [|specs [|body [|x items]]];
    try (eexists; split; [reflexivity|auto]).
  destruct specs as [| | | | |specs|]; try (eexists; split; [reflexivity|auto]).
  destruct (iteration_specs_loop _ specs [] []) as [e|[names vals]] eqn:E.
  - exists e. split; [reflexivity|]. eapply iteration_specs_loop_error; eauto.
  - destruct (existsb _ vals); [eexists; split; [reflexivity|auto]|].
    destruct (combinations_loop _ _ _ _ _ _ _ _);
      [eexists; split; [reflexivity|auto]|].
    exfalso. now apply Hc.
Qed.

Lemma for_each_root_well_formed specs body :
  for_each Root tt tt (for_each_argument specs body) = (tt, Raised no_slot_error).
Proof.
  pose proof (@for_each_completes Root tt tt (for_each_argument specs body)) as Hc.
  rewrite for_each_well_formed in *.
  destruct (existsb _ _); [reflexivity|].
  destruct (combinations_loop _ _ _ _ _ _ _ _); [reflexivity|].
  exfalso. now apply Hc.
Qed.

Lemma builtin_names name :
  In name ["Turing::Splice"; "Turing::ForEach"; "Turing::Foreach"] ->
  (name = "Turing::Splice" /\ dict_get functions name = Some splice)
  \/ (name <> "Turing::Splice" /\ dict_get functions name = Some for_each).
Proof.
  intros [<-|[<-|[<-|[]]]];
    [left|right|right]; (split; [try discriminate|]; reflexivity).
Qed.

(** C10.  A document whose root is a call of a built-in function never
    resolves: whatever the argument and however long the walk may run, the
    call does not return; and once the children of the call are resolved
    the function is called with no parent and raises.  Splice raises a
    [TypeError] (no sequence to splice into), ForEach a [TypeError] or
    [ValueError], and with a well-formed argument it is the [TypeError] of
    the assignment into the missing slot. *)
Theorem root_call_fails (name : string) (arg : value) :
  In name ["Turing::Splice"; "Turing::ForEach"; "Turing::Foreach"] ->
  (forall fuel, snd (resolve fuel (call name arg)) <> Returned)
  /\ forall fuel arg',
       passes (process_fragment fuel InDict) MAX_RECURSION [] [(name, arg)]
       = ([(name, arg')], Returned) ->
       exists e,
         resolve (S fuel) (call name arg) = (call name arg', Raised e)
         /\ (class_of e = TypeError \/ class_of e = ValueError)
         /\ (name = "Turing::Splice" -> class_of e = TypeError)
         /\ (name <> "Turing::Splice" ->
             forall specs body,
               arg' = for_each_argument specs body -> e = no_slot_error).
Proof.
  intros Hname.
  assert (Step : forall fuel arg',
             passes (process_fragment fuel InDict) MAX_RECURSION [] [(name, arg)]
             = ([(name, arg')], Returned) ->
             exists e,
               resolve (S fuel) (call name arg) = (call name arg', Raised e)
               /\ (class_of e = TypeError \/ class_of e = ValueError)
               /\ (name = "Turing::Splice" -> class_of e = TypeError)
               /\ (name <> "Turing::Splice" ->
                   forall specs body,
                     arg' = for_each_argument specs body -> e = no_slot_error)).
  { intros fuel arg' Hp. unfold resolve.
    destruct (builtin_names Hname) as [[Hn Hf]|[Hn Hf]].
    - rewrite (@process_fragment_call fuel Root tt tt name arg arg' splice Hf Hp).
      cbn [splice alias]. eexists. split; [reflexivity|].
      split; [now left|]. split; [reflexivity|]. intros; contradiction.
    - rewrite (@process_fragment_call fuel Root tt tt name arg arg' for_each Hf Hp).
      cbn [alias].
      destruct (for_each_root arg') as (e & E & Hcls).
      rewrite E. exists e. split; [reflexivity|]. split; [exact Hcls|].
      split; [intros; contradiction|].
      intros _ specs body ->.
      rewrite for_each_root_well_formed in E. congruence. }
  split; [|exact Step].
  intros [|fuel]; [discriminate|].
  destruct (passes_call fuel name arg) as (arg' & c & Hp).
  destruct c.
  - destruct (Step fuel arg' Hp) as (e & E & _). rewrite E. discriminate.
  - unfold resolve, call. rewrite process_fragment_dict, Hp. discriminate.
  - unfold resolve, call. rewrite process_fragment_dict, Hp. discriminate.
Qed.

Lemma root_call_fails_witness :
  (forall fuel,
      snd (resolve fuel (call "Turing::ForEach"
                           (for_each_argument [("x", [VInt 1])] (VStr "$x"))))
      <> Returned)
  /\ resolve 9 (call "Turing::ForEach"
                  (for_each_argument [("x", [VInt 1])] (VStr "$x")))
     = (call "Turing::ForEach" (for_each_argument [("x", [VInt 1])] (VStr "$x")),
        Raised no_slot_error).
Proof.
  destruct (@root_call_fails "Turing::ForEach"
              (for_each_argument [("x", [VInt 1])] (VStr "$x")))
    as [Hnever Hraise].
  - simpl; auto.
  - split; [exact Hnever|].
    destruct (Hraise 8 (for_each_argument [("x", [VInt 1])] (VStr "$x")) eq_refl)
      as (e & E & _ & _ & Hwf).
    rewrite E. f_equal. f_equal. apply (Hwf ltac:(discriminate) _ _ eq_refl).
Defined.

(** ** Strings *)

Lemma append_nil_r (s : string) : (s ++ "")%string = s.
Proof. induction s as [|c s IH]; cbn; [reflexivity|now rewrite IH]. Qed.







(** ** The substitution, piece by piece *)


Lemma pattern_sub_text binding (t s : string) :
  contains_char "$" t = false ->
  pattern_sub binding (t ++ s) 0 = (t ++ pattern_sub binding s 0)%string.
Proof.
  unfold contains_char.
  induction t as [|c t IH]; cbn [list_ascii_of_string existsb append];
    [reflexivity|].
  intros H. apply orb_false_iff in H as [Hc Ht].
  cbn [pattern_sub]. rewrite Ascii.eqb_sym, Hc, IH by exact Ht. reflexivity.
Qed.










(** ** [json_string_sub] *)

Lemma dict_set_fresh A (d : dict A) k v :
  ~ In k (dict_keys d) -> dict_set d k v = d ++ [(k, v)].
Proof.
  induction d as [|[k' v'] d IH]; cbn [dict_set dict_keys map fst app In];
    [reflexivity|].
  intros H. destruct (String.eqb_spec k' k) as [->|_]; [tauto|].
  rewrite IH; [reflexivity|tauto].
Qed.

Lemma fold_dict_set_distinct A B (fk : A -> string) (fv : A -> B)
  (items : list A) :
  forall acc,
    NoDup (dict_keys acc ++ map fk items) ->
    fold_left (fun acc x => dict_set acc (fk x) (fv x)) items acc
    = acc ++ map (fun x => (fk x, fv x)) items.
Proof.
  induction items as [|x items IH]; intros acc Hnd; cbn [fold_left map].
  - now rewrite app_nil_r.
  - cbn [map] in Hnd.
    assert (Hx : ~ In (fk x) (dict_keys acc)).
    { intros Hin. apply NoDup_remove_2 in Hnd. apply Hnd.
      apply in_or_app. now left. }
    rewrite (@dict_set_fresh _ acc (fk x) (fv x) Hx), IH.
    + now rewrite <- app_assoc.
    + unfold dict_keys in *. rewrite map_app, <- app_assoc. exact Hnd.
Qed.



(** * Further properties *)

(** ** Slots *)

Lemma list_set_same A (l : list A) i v :
  nth_error l i = Some v -> list_set l i v = l.
Proof.
  revert i; induction l as [|x l IH]; intros [|i]; cbn; try discriminate.
  - now intros [= ->].
  - intros H. now rewrite IH.
Qed.

Lemma dict_set_same A (d : dict A) k v :
  dict_get d k = Some v -> dict_set d k v = d.
Proof.
  induction d as [|[k' v'] d IH]; cbn; [discriminate|].
  destruct (String.eqb k' k); [now intros [= ->]|].
  intros H. now rewrite IH.
Qed.

Lemma alias_holds k parent key v :
  @slot_holds k parent key v -> alias k parent key v = parent.
Proof.
  destruct k; cbn; auto using list_set_same, dict_set_same.
Qed.

Lemma dict_get_In A (d : dict A) k v : dict_get d k = Some v -> In (k, v) d.
Proof.
  induction d as [|[k' v'] d IH]; cbn; [discriminate|].
  destruct (String.eqb_spec k' k) as [->|_]; [intros [= ->]; now left|].
  intros H. right. auto.
Qed.

Lemma In_dict_keys A (d : dict A) k :
  In k (dict_keys d) -> exists v, dict_get d k = Some v.
Proof.
  induction d as [|[k' v'] d IH]; cbn; [tauto|].
  destruct (String.eqb_spec k' k) as [->|Hne]; [eauto|].
  intros [H|H]; [contradiction|auto].
Qed.

(** ** Documents without a function call *)

Lemma items_loop_no_call k parent key fragment items :
  forallb (fun kv : string * value => negb (startswith (fst kv) "Turing::")) items
  = true ->
  items_loop k parent key fragment items = (parent, Returned).
Proof.
  induction items as [|[name v] items IH]; cbn [forallb items_loop fst];
    [reflexivity|].
  intros H. apply andb_true_iff in H as [Hn Hr].
  apply negb_true_iff in Hn. rewrite Hn. auto.
Qed.

Section Unchanged.
Variable process_entry
  : dict value -> string -> value -> dict value * value * completion.
Variable d : dict value.
Hypothesis entry_unchanged :
  forall k child,
    dict_get d k = Some child -> process_entry d k child = (d, child, Returned).

Lemma keys_pass_unchanged fragment_keys :
  forall new seen,
    (forall k, In k fragment_keys -> In k (dict_keys d)) ->
    exists new' seen',
      keys_pass process_entry fragment_keys new seen d
      = (new', seen', d, Returned).
Proof.
  induction fragment_keys as [|k ks IH]; intros new seen Hin; cbn [keys_pass].
  - eauto.
  - assert (Hks : forall k0, In k0 ks -> In k0 (dict_keys d))
      by (intros k0 H0; apply Hin; now right).
    destruct (set_mem k seen); [now apply IH|].
    destruct (In_dict_keys d k (Hin k (or_introl eq_refl))) as [child Hc].
    rewrite Hc, (entry_unchanged _ Hc). now apply IH.
Qed.

Lemma keys_pass_all_seen fragment_keys :
  forall seen,
    (forall k, In k fragment_keys -> set_mem k seen = true) ->
    keys_pass process_entry fragment_keys false seen d
    = (false, seen, d, Returned).
Proof.
  induction fragment_keys as [|k ks IH]; intros seen H; cbn [keys_pass].
  - reflexivity.
  - rewrite (H k (or_introl eq_refl)). apply IH.
    intros k0 H0. apply H. now right.
Qed.

(** Two passes are enough when no child changes the mapping. *)
Lemma passes_unchanged n seen :
  passes process_entry (S (S n)) seen d = (d, Returned).
Proof.
  cbn [passes].
  destruct (@keys_pass_unchanged (dict_keys d) false seen (fun _ H => H))
    as (new' & seen' & E).
  rewrite E. destruct new'; cbn [negb]; [|reflexivity].
  rewrite keys_pass_all_seen; [reflexivity|].
  intros k Hk. exact (proj2 (@keys_pass_seen_all _ _ _ _ _ _ _ _ E) k Hk).
Qed.
End Unchanged.

Section UnchangedList.
Variable process_item
  : list value -> nat -> value -> list value * value * completion.
Variable l : list value.
Hypothesis item_unchanged :
  forall i item,
    nth_error l i = Some item -> process_item l i item = (l, item, Returned).

Lemma enumerate_loop_unchanged steps :
  forall i, i <= length l -> length l < steps + i ->
            enumerate_loop process_item steps l i = (l, Returned).
Proof.
  induction steps as [|steps IH]; intros i Hi H; cbn [enumerate_loop]; [lia|].
  destruct (nth_error l i) as [item|] eqn:E; [|reflexivity].
  assert (i < length l) by (apply nth_error_Some; congruence).
  rewrite (item_unchanged _ E). apply IH; lia.
Qed.
End UnchangedList.

Lemma fuel_for_element (l : list value) (item : value) :
  In item l -> fuel_for item <= list_max (map fuel_for l).
Proof.
  intros H.
  assert (F : Forall (fun n => n <= list_max (map fuel_for l)) (map fuel_for l))
    by now apply list_max_le.
  rewrite Forall_forall in F. apply F. now apply in_map.
Qed.

Lemma fuel_for_entry (d : dict value) (k : string) (child : value) :
  In (k, child) d ->
  fuel_for child <= list_max (map (fun kv => fuel_for (snd kv)) d).
Proof.
  intros H.
  assert (F : Forall (fun n => n <= list_max (map (fun kv => fuel_for (snd kv)) d))
                (map (fun kv : string * value => fuel_for (snd kv)) d))
    by now apply list_max_le.
  rewrite Forall_forall in F. apply F.
  apply in_map_iff. now exists (k, child).
Qed.

Lemma process_fragment_call_free (v : value) :
  call_free v = true ->
  forall fuel k (parent : container k) (key : index k),
    fuel_for v <= fuel ->
    slot_holds k parent key v ->
    process_fragment fuel k parent key v = (parent, v, Returned).
Proof.
  induction v as [| | | | |l IH|d IH] using value_ind; intros Hfree fuel k parent key Hfuel Hslot;
    (destruct fuel as [|fuel]; [cbn in Hfuel; lia|]); try reflexivity.
  - cbn [fuel_for call_free] in *. rewrite process_fragment_list.
    rewrite (@enumerate_loop_unchanged (process_fragment fuel InList) l).
    + now rewrite (@alias_holds _ _ _ _ Hslot).
    + intros i item Hi.
      assert (Hin : In item l) by (eapply nth_error_In; eauto).
      rewrite Forall_forall in IH.
      apply (fun Hf => IH item Hin Hf fuel InList l i); auto.
      * rewrite forallb_forall in Hfree. auto.
      * pose proof (@fuel_for_element _ _ Hin). lia.
    + lia.
    + lia.
  - cbn [fuel_for call_free] in *. rewrite process_fragment_dict.
    change MAX_RECURSION with (S (S 14)).
    rewrite (@passes_unchanged (process_fragment fuel InDict) d).
    + rewrite items_loop_no_call.
      * now rewrite (@alias_holds _ _ _ _ Hslot).
      * rewrite forallb_forall in *. intros kv Hkv.
        specialize (Hfree kv Hkv). apply andb_true_iff in Hfree. tauto.
    + intros k0 child Hc.
      assert (Hin : In (k0, child) d) by now apply dict_get_In.
      rewrite Forall_forall in IH.
      apply (fun Hf => IH (k0, child) Hin Hf fuel InDict d k0); auto.
      * rewrite forallb_forall in Hfree. specialize (Hfree _ Hin).
        apply andb_true_iff in Hfree. tauto.
      * pose proof (@fuel_for_entry _ _ _ Hin). cbn [snd]. lia.
Qed.

(** X1.  A document in which no mapping has a key with the reserved prefix
    is walked to the end and left exactly as it was, and so is its parent:
    with fuel for its depth and its lists, [process_fragment] returns and
    changes nothing. *)
Theorem call_free_unchanged (v : value) fuel k (parent : container k)
  (key : index k) :
  call_free v = true ->
  fuel_for v <= fuel ->
  slot_holds k parent key v ->
  process_fragment fuel k parent key v = (parent, v, Returned).
Proof.
  intros Hfree Hfuel Hslot. now apply process_fragment_call_free.
Qed.

Lemma call_free_unchanged_witness :
  process_fragment 5 InDict
    [("Resources", VDict [("a", VList [VInt 1; VStr "$x"])])] "Resources"
    (VDict [("a", VList [VInt 1; VStr "$x"])])
  = ([("Resources", VDict [("a", VList [VInt 1; VStr "$x"])])],
     VDict [("a", VList [VInt 1; VStr "$x"])], Returned).
Proof.
  apply (@call_free_unchanged (VDict [("a", VList [VInt 1; VStr "$x"])])
           5 InDict
           [("Resources", VDict [("a", VList [VInt 1; VStr "$x"])])] "Resources"
           eq_refl).
  - cbn. lia.
  - reflexivity.
Defined.

(** ** The registry *)

Lemma items_loop_unknown k parent key name v :
  startswith name "Turing::" = true ->
  dict_get functions name = None ->
  items_loop k parent key [(name, v)] [(name, v)]
  = (parent, Raised (Exception ValueError ("Unknown function " ++ name)%string)).
Proof.
  intros Hp Hf. cbn [items_loop length Nat.eqb negb]. now rewrite Hp, Hf.
Qed.

(** X2.  A single-entry mapping whose key has the reserved prefix but is
    not one of the registered names makes [process_fragment] raise the
    "Unknown function" [ValueError], once the children of the mapping are
    resolved; the lookup is exact, so a name that differs in case only is
    unknown. *)
Theorem unknown_function fuel k (parent : container k) (key : index k)
  (name : string) (arg arg' : value) :
  startswith name "Turing::" = true ->
  dict_get functions name = None ->
  passes (process_fragment fuel InDict) MAX_RECURSION [] [(name, arg)]
  = ([(name, arg')], Returned) ->
  process_fragment (S fuel) k parent key (call name arg)
  = (alias k parent key (call name arg'), call name arg',
     Raised (Exception ValueError ("Unknown function " ++ name)%string)).
Proof.
  intros Hp Hf He. unfold call.
  rewrite process_fragment_dict, He, items_loop_unknown by assumption.
  reflexivity.
Qed.

Lemma unknown_function_witness :
  process_fragment 4 Root tt tt (call "Turing::foreach" (VList []))
  = (tt, call "Turing::foreach" (VList []),
     Raised (Exception ValueError "Unknown function Turing::foreach")).
Proof.
  apply (@unknown_function 3 Root tt tt "Turing::foreach" (VList []) (VList []));
    reflexivity.
Defined.

(** ** The registered functions: failure and bounds *)

Lemma py_setitem_failure k parent key v :
  snd (py_setitem k parent key v) <> Returned ->
  fst (py_setitem k parent key v) = parent.
Proof.
  destruct k; cbn [py_setitem fst snd]; auto.
  - destruct (key <? length parent); cbn [fst snd]; congruence.
  - congruence.
Qed.

(** X3.  A registered function that does not return has not touched its
    parent: [splice] and [for_each] check everything before their single
    assignment. *)
Theorem function_failure_leaves_parent (name : string) (f : handler)
  k (parent : container k) (key : index k) (fragment : value) :
  dict_get functions name = Some f ->
  snd (f k parent key fragment) <> Returned ->
  fst (f k parent key fragment) = parent.
Proof.
  intros Hf. apply functions_cases in Hf as [[_ ->]|[_ ->]].
  - destruct k; cbn [splice fst snd]; auto.
    destruct fragment; cbn [fst snd]; congruence.
  - destruct (for_each_result k parent key fragment) as [(c & E & _)|[result E]];
      rewrite E; [reflexivity|apply py_setitem_failure].
Qed.

Lemma function_failure_leaves_parent_witness :
  fst (for_each InList [VInt 1; VInt 2] 1 (VList [VStr "x"]))
  = [VInt 1; VInt 2].
Proof.
  apply (@function_failure_leaves_parent "Turing::ForEach" for_each InList
           [VInt 1; VInt 2] 1 (VList [VStr "x"]) eq_refl).
  discriminate.
Defined.

(** X4.  [splice] at the bounds of its parent: an index at or past the end
    appends the elements (the slice is clamped, nothing is raised), and
    splicing a one-element list at an index of the parent is the
    assignment of that element. *)
Theorem splice_bounds (parent : list value) (key : nat) (items : list value) :
  (length parent <= key ->
   splice InList parent key (VList items) = (parent ++ items, Returned))
  /\ (key < length parent ->
      forall x,
        splice InList parent key (VList [x]) = py_setitem InList parent key x).
Proof.
  split.
  - intros H. rewrite splice_list.
    rewrite firstn_all2 by exact H.
    rewrite skipn_all2 by lia. now rewrite app_nil_r.
  - intros H x. rewrite splice_list. cbn [py_setitem].
    apply Nat.ltb_lt in H. rewrite H. f_equal.
    apply Nat.ltb_lt in H. clear items.
    revert key H; induction parent as [|y parent IH]; intros [|key] H;
      cbn in *; try lia; [reflexivity|].
    f_equal. apply IH. lia.
Qed.

Lemma splice_bounds_witness :
  splice InList [VStr "a"] 3 (VList [VStr "b"; VStr "c"])
  = ([VStr "a"; VStr "b"; VStr "c"], Returned)
  /\ splice InList [VStr "a"; VStr "b"] 1 (VList [VStr "c"])
     = py_setitem InList [VStr "a"; VStr "b"] 1 (VStr "c").
Proof.
  split.
  - apply (proj1 (splice_bounds [VStr "a"] 3 [VStr "b"; VStr "c"])).
    cbn; lia.
  - apply (proj2 (splice_bounds [VStr "a"; VStr "b"] 1 []) ltac:(cbn; lia)).
Defined.

(** ** [for_each]: the argument check and the number of results *)

Lemma iteration_specs_loop_check fragment specs :
  forall names vals,
    (exists sp, specs = iteration_specs_of sp)
    \/ ((forall sp, specs <> iteration_specs_of sp)
        /\ exists cls v,
            (cls = TypeError \/ cls = ValueError)
            /\ iteration_specs_loop fragment specs names vals
               = inl (Exception cls (usage_msg v))).
Proof.
  induction specs as [|spec specs IH]; intros names vals.
  - left. now exists [].
  - assert (Bad : forall cls v,
               (cls = TypeError \/ cls = ValueError) ->
               (forall n vs, spec <> VList [VStr n; VList vs]) ->
               iteration_specs_loop fragment (spec :: specs) names vals
               = inl (Exception cls (usage_msg v)) ->
               (exists sp, spec :: specs = iteration_specs_of sp)
               \/ ((forall sp, spec :: specs <> iteration_specs_of sp)
                   /\ exists cls v,
                       (cls = TypeError \/ cls = ValueError)
                       /\ iteration_specs_loop fragment (spec :: specs) names vals
                          = inl (Exception cls (usage_msg v)))).
    { intros cls v Hc Hn E. right. split; [|eauto].
      intros [|[n vs] sp]; [discriminate|].
      cbn [iteration_specs_of map fst snd]. intros [= H _].
      exact (Hn _ _ H). }
    destruct spec as [| | | | |spec|];
      try (eapply Bad; [right; reflexivity|discriminate|reflexivity]);
      try (eapply Bad; [left; reflexivity|discriminate|reflexivity]).
    destruct spec as [|name [|values [|x spec]]];
      try (eapply Bad; [right; reflexivity|discriminate|reflexivity]).
    destruct name;
      try (eapply Bad; [left; reflexivity|discriminate|reflexivity]).
    destruct values;
      try (eapply Bad; [left; reflexivity|discriminate|reflexivity]).
    cbn [iteration_specs_loop].
    destruct (IH (names ++ [s]) (vals ++ [map py_str l]))
      as [[sp ->]|[Hn (cls & v & Hc & E)]].
    + left. now exists ((s, l) :: sp).
    + right. split; [|eauto].
      intros [|[n vs] sp]; [discriminate|].
      cbn [iteration_specs_of map fst snd]. intros [= _ _ H].
      exact (Hn _ H).
Qed.

(** X5.  [for_each] accepts exactly the arguments of the shape
    [[[name, [value, ...]], ...], body] with string names: it then ends by
    assigning a list to [parent[key]]; for every other argument it raises
    a [TypeError] or a [ValueError] carrying the usage message, and leaves
    [parent] as it was. *)
Theorem for_each_argument_check k (parent : container k) (key : index k)
  (fragment : value) :
  (exists specs body result,
      fragment = for_each_argument specs body
      /\ for_each k parent key fragment = py_setitem k parent key (VList result))
  \/ ((forall specs body, fragment <> for_each_argument specs body)
      /\ exists cls v,
          (cls = TypeError \/ cls = ValueError)
          /\ for_each k parent key fragment
             = (parent, Raised (Exception cls (usage_msg v)))).
Proof.
  assert (Bad : forall cls v,
             (cls = TypeError \/ cls = ValueError) ->
             (forall specs body, fragment <> for_each_argument specs body) ->
             for_each k parent key fragment
             = (parent, Raised (Exception cls (usage_msg v))) ->
             (exists specs body result,
                 fragment = for_each_argument specs body
                 /\ for_each k parent key fragment
                    = py_setitem k parent key (VList result))
             \/ ((forall specs body, fragment <> for_each_argument specs body)
                 /\ exists cls v,
                     (cls = TypeError \/ cls = ValueError)
                     /\ for_each k parent key fragment
                        = (parent, Raised (Exception cls (usage_msg v))))).
  { intros cls v Hc Hn E. right. split; [exact Hn|eauto]. }
  destruct fragment as [| | | | |items|];
    try (eapply Bad; [left; reflexivity|discriminate|reflexivity]).
  destruct items as [|specs [|body [|x items]]];
    try (eapply Bad; [right; reflexivity|discriminate|reflexivity]).
  destruct specs as [| | | | |specs|];
    try (eapply Bad; [left; reflexivity|discriminate|reflexivity]).
  destruct (iteration_specs_loop_check (VList [VList specs; body]) specs [] [])
    as [[sp ->]|[Hn (cls & v & Hc & E)]].
  - left. exists sp, body.
    pose proof (@for_each_completes k parent key (for_each_argument sp body)) as Hc.
    fold (for_each_argument sp body).
    rewrite for_each_well_formed in *.
    destruct (existsb _ _); [eexists; split; reflexivity|].
    destruct (combinations_loop _ _ _ _ _ _ _ _) as [result|];
      [eexists; split; reflexivity|].
    exfalso. now apply Hc.
  - eapply Bad; [exact Hc| |].
    + intros sp b [= H _]. exact (Hn _ H).
    + unfold for_each. now rewrite E.
Qed.

(** X6.  Whatever the names of the variables (they may repeat), with
    non-empty value lists [for_each] assigns a list with as many elements
    as the product of the lengths of the value lists. *)
Theorem for_each_length k (parent : container k) (key : index k)
  (specs : list (string * list value)) (body : value) :
  Forall (fun spec => snd spec <> []) specs ->
  exists result,
    for_each k parent key (for_each_argument specs body)
    = py_setitem k parent key (VList result)
    /\ length result = product (map (fun spec => length (snd spec)) specs).
Proof.
  intros Hne.
  rewrite for_each_well_formed, (spec_values_nonempty Hne).
  assert (Hlen : length (spec_values specs) = length (spec_names specs))
    by now rewrite spec_values_length, spec_names_length.
  assert (Hpos := no_empty_value_list _ (spec_values_nonempty Hne)).
  assert (Hz : indexes_from (map (@length string) (spec_values specs))
                 (repeat 0 (length (spec_names specs)))
               = all_indexes (map (@length string) (spec_values specs))).
  { rewrite <- Hlen, <- (length_map (@length string)).
    now apply indexes_from_zeros. }
  destruct (@combinations_loop_total body (spec_names specs) (spec_values specs)
              Hlen Hpos
              (product (map (@length string) (spec_values specs)))
              (repeat 0 (length (spec_names specs)))
              (starting_values (spec_names specs) (spec_values specs)) [])
    as (outputs & E & L).
  - apply repeat_length.
  - now rewrite Hz, all_indexes_length.
  - rewrite E. exists outputs. split; [reflexivity|].
    now rewrite L, Hz, all_indexes_length, spec_values_lengths.
Qed.

Lemma for_each_length_witness :
  exists result,
    for_each InDict [("k", VNone)] "k"
      (for_each_argument [("x", [VInt 1; VInt 2]); ("x", [VStr "a"; VStr "b"])]
         (VStr "${x}"))
    = ([("k", VList result)], Returned)
    /\ length result = 4.
Proof.
  apply (@for_each_length InDict [("k", VNone)] "k"
           [("x", [VInt 1; VInt 2]); ("x", [VStr "a"; VStr "b"])] (VStr "${x}")).
  repeat constructor; discriminate.
Defined.

(** ** A function call whose argument holds no call *)

Lemma passes_call_free fuel name arg :
  call_free arg = true -> fuel_for arg <= fuel ->
  passes (process_fragment fuel InDict) MAX_RECURSION [] [(name, arg)]
  = ([(name, arg)], Returned).
Proof.
  intros Hfree Hfuel. change MAX_RECURSION with (S (S 14)).
  apply passes_unchanged. intros k0 child. cbn [dict_get].
  destruct (String.eqb_spec name k0) as [<-|_]; [|discriminate].
  intros [= <-].
  apply (@process_fragment_call_free arg Hfree fuel InDict [(name, arg)] name
           Hfuel).
  cbn [slot_holds dict_get]. now rewrite String.eqb_refl.
Qed.

(** X7.  A call of a registered function whose argument holds no further
    call is resolved by one application of the function, to the argument
    as it was written and to the parent of the call; nothing else is done
    to the document by that step. *)
Theorem call_resolved_once (name : string) (f : handler) (arg : value)
  fuel k (parent : container k) (key : index k) :
  dict_get functions name = Some f ->
  call_free arg = true ->
  fuel_for arg <= fuel ->
  slot_holds k parent key (call name arg) ->
  process_fragment (S fuel) k parent key (call name arg)
  = let '(parent', c) := f k parent key arg in (parent', call name arg, c).
Proof.
  intros Hf Hfree Hfuel Hslot.
  rewrite (@process_fragment_call fuel k parent key name arg arg f Hf
             (@passes_call_free fuel name arg Hfree Hfuel)).
  now rewrite (@alias_holds _ _ _ _ Hslot).
Qed.

Lemma call_resolved_once_witness :
  process_fragment 9 InDict
    [("Hello",
      call "Turing::ForEach"
        (for_each_argument [("x", [VInt 1; VInt 2; VInt 3])] (VStr "Hello ${x}")))]
    "Hello"
    (call "Turing::ForEach"
       (for_each_argument [("x", [VInt 1; VInt 2; VInt 3])] (VStr "Hello ${x}")))
  = ([("Hello", VList [VStr "Hello 1"; VStr "Hello 2"; VStr "Hello 3"])],
     call "Turing::ForEach"
       (for_each_argument [("x", [VInt 1; VInt 2; VInt 3])] (VStr "Hello ${x}")),
     Returned).
Proof.
  apply (@call_resolved_once "Turing::ForEach" for_each
           (for_each_argument [("x", [VInt 1; VInt 2; VInt 3])] (VStr "Hello ${x}"))
           8 InDict
           [("Hello",
             call "Turing::ForEach"
               (for_each_argument [("x", [VInt 1; VInt 2; VInt 3])]
                  (VStr "Hello ${x}")))]
           "Hello" eq_refl eq_refl).
  - apply Nat.leb_le. reflexivity.
  - reflexivity.
Defined.

(** ** Splice in a sequence without other calls *)

Section WalkParts.
Variable process_item
  : list value -> nat -> value -> list value * value * completion.
Variable l : list value.

Lemma enumerate_loop_skip n :
  forall steps i,
    (forall j item, i <= j < i + n -> nth_error l j = Some item ->
                    process_item l j item = (l, item, Returned)) ->
    i + n <= length l ->
    enumerate_loop process_item (n + steps) l i
    = enumerate_loop process_item steps l (i + n).
Proof.
  induction n as [|n IH]; intros steps i H Hlen.
  - now rewrite Nat.add_0_r.
  - cbn [Nat.add enumerate_loop].
    destruct (nth_error l i) as [item|] eqn:E.
    + rewrite (H i item); [|lia|exact E].
      rewrite IH; [f_equal; lia| |lia].
      intros j item' Hj. apply H. lia.
    + apply nth_error_None in E. lia.
Qed.

Lemma enumerate_loop_rest steps :
  forall i,
    (forall j item, i <= j -> nth_error l j = Some item ->
                    process_item l j item = (l, item, Returned)) ->
    1 <= steps -> length l < steps + i ->
    enumerate_loop process_item steps l i = (l, Returned).
Proof.
  induction steps as [|steps IH]; intros i H Hs Hlen; [lia|].
  cbn [enumerate_loop].
  destruct (nth_error l i) as [item|] eqn:E; [|reflexivity].
  assert (i < length l) by (apply nth_error_Some; congruence).
  rewrite (H i item); [|lia|exact E].
  apply IH; [|lia|lia].
  intros j item' Hj. apply H. lia.
Qed.
End WalkParts.

Lemma call_free_item fuel (l : list value) j item :
  nth_error l j = Some item -> call_free item = true -> fuel_for item <= fuel ->
  process_fragment fuel InList l j item = (l, item, Returned).
Proof.
  intros E Hf Hfuel.
  exact (@process_fragment_call_free item Hf fuel InList l j Hfuel E).
Qed.

Lemma forallb_nth_error A (p : A -> bool) (l : list A) j x :
  forallb p l = true -> nth_error l j = Some x -> p x = true.
Proof.
  intros H E. rewrite forallb_forall in H. apply H.
  eapply nth_error_In; eauto.
Qed.

(** X8.  In a sequence that holds one Splice call and no other call, the
    walk replaces the call by the elements of its argument and leaves the
    rest as it is: [a, b, {Splice: [c, d]}, e, f] becomes
    [a, b, c, d, e, f]. *)
Theorem splice_in_sequence (before items after : list value) (fuel : nat) :
  forallb call_free (before ++ items ++ after) = true ->
  S (fuel_for (VList (before ++ call "Turing::Splice" (VList items) :: after))
     + length items) <= fuel ->
  resolve fuel (VList (before ++ call "Turing::Splice" (VList items) :: after))
  = (VList (before ++ items ++ after), Returned).
Proof.
  intros Hfree Hfuel.
  set (C := call "Turing::Splice" (VList items)) in *.
  set (l := before ++ C :: after) in *.
  destruct fuel as [|f]; [lia|].
  apply le_S_n in Hfuel. cbn [fuel_for] in Hfuel.
  assert (Hl : length l = length before + S (length after))
    by (unfold l; rewrite length_app; reflexivity).
  assert (HC : fuel_for C <= list_max (map fuel_for l)).
  { apply fuel_for_element. unfold l. apply in_or_app. right. now left. }
  assert (Hel : forall e, In e l -> fuel_for e <= f).
  { intros e He. pose proof (@fuel_for_element l e He). lia. }
  rewrite !forallb_app in Hfree.
  apply andb_true_iff in Hfree as [Hb Hia].
  apply andb_true_iff in Hia as [Hi Ha].
  (* the fuel of the call and of its argument *)
  unfold C in HC. cbn [call fuel_for map list_max fold_right snd] in HC.
  rewrite Nat.max_0_r in HC.
  destruct f as [|[|f']]; try lia.
  assert (Hitems : forall e, In e items -> fuel_for e <= f').
  { intros e He. pose proof (@fuel_for_element items e He). lia. }
  unfold resolve. rewrite process_fragment_list.
  (* the elements before the call *)
  replace (S (S f')) with (length before + (S (S f') - length before)) at 2 by lia.
  rewrite enumerate_loop_skip.
  2:{ intros j item Hj E. apply call_free_item; [exact E| |].
      - unfold l in E. rewrite nth_error_app1 in E by lia.
        exact (@forallb_nth_error _ call_free before j item Hb E).
      - apply Hel. eapply nth_error_In; eauto. }
  2:{ lia. }
  (* the call itself *)
  replace (S (S f') - length before)
    with (S (S (S f') - length before - 1)) by lia.
  cbn [Nat.add].
  assert (EC : nth_error l (length before) = Some C).
  { unfold l. rewrite nth_error_app2, Nat.sub_diag by lia. reflexivity. }
  cbn [enumerate_loop]. rewrite EC. unfold C at 1.
  rewrite (@splice_call_resolved f' l (length before) items items).
  2:{ apply enumerate_loop_unchanged; [|lia|lia].
      intros j item E. apply call_free_item; [exact E| |].
      - exact (@forallb_nth_error _ call_free items j item Hi E).
      - apply Hitems. eapply nth_error_In; eauto. }
  assert (Hnew : firstn (length before) l ++ items ++ skipn (length before + 1) l
                 = before ++ items ++ after).
  { unfold l. rewrite firstn_app, firstn_all, Nat.sub_diag. cbn [firstn].
    rewrite app_nil_r, skipn_app.
    rewrite skipn_all2 by lia.
    replace (length before + 1 - length before) with 1 by lia.
    reflexivity. }
  rewrite Hnew.
  (* what follows the call *)
  rewrite enumerate_loop_rest.
  - reflexivity.
  - intros j item Hj E. apply call_free_item; [exact E| |].
    + rewrite nth_error_app2 in E by lia.
      apply (@forallb_nth_error _ call_free (items ++ after)
               (j - length before) item); [|exact E].
      rewrite forallb_app. now rewrite Hi, Ha.
    + rewrite nth_error_app2 in E by lia.
      apply nth_error_In in E. apply in_app_or in E as [E|E].
      * pose proof (Hitems _ E). lia.
      * apply Hel. unfold l. apply in_or_app. right. now right.
  - lia.
  - rewrite !length_app. lia.
Qed.

Lemma splice_in_sequence_witness :
  resolve 12
    (VList [VStr "a"; VStr "b";
            call "Turing::Splice" (VList [VStr "c"; VStr "d"]);
            VStr "e"; VStr "f"])
  = (VList [VStr "a"; VStr "b"; VStr "c"; VStr "d"; VStr "e"; VStr "f"],
     Returned).
Proof.
  apply (@splice_in_sequence [VStr "a"; VStr "b"] [VStr "c"; VStr "d"]
           [VStr "e"; VStr "f"] 12 eq_refl).
  apply Nat.leb_le. reflexivity.
Defined.

(** ** [handler] *)

(** X9.  Given an event with its four keys, [handler] never lets an
    exception out and always echoes the request id; its status is
    "success" exactly when the walk returned and "failed" exactly when it
    raised, and the fragment of the response is the document as the walk
    left it (on failure: as it was when the exception was raised).  A
    fragment without any function call comes back unchanged with
    "success". *)
Theorem handler_response fuel (event : dict value) (context : value)
  (fragment request_id params template_params : value) :
  dict_get event "fragment" = Some fragment ->
  dict_get event "requestId" = Some request_id ->
  dict_get event "params" = Some params ->
  dict_get event "templateParameterValues" = Some template_params ->
  (forall e, lambda_handler.handler fuel event context <> Uncaught e)
  /\ (snd (resolve fuel fragment) = Returned
      <-> lambda_handler.handler fuel event context
          = Response [("fragment", fst (resolve fuel fragment));
                      ("requestId", request_id);
                      ("status", VStr "success")])
  /\ ((exists e, snd (resolve fuel fragment) = Raised e)
      <-> lambda_handler.handler fuel event context
          = Response [("fragment", fst (resolve fuel fragment));
                      ("requestId", request_id);
                      ("status", VStr "failed")])
  /\ (call_free fragment = true -> fuel_for fragment <= fuel ->
      lambda_handler.handler fuel event context
      = Response [("fragment", fragment);
                  ("requestId", request_id);
                  ("status", VStr "success")]).
Proof.
  intros Hf Hr Hp Ht.
  unfold lambda_handler.handler, resolve. rewrite Hf, Hr, Hp, Ht.
  split; [|split; [|split]].
  - intros e. destruct (process_fragment fuel Root tt tt fragment) as [[p v] c].
    destruct c; discriminate.
  - destruct (process_fragment fuel Root tt tt fragment) as [[p v] c].
    cbn [fst snd]. destruct c; split; try reflexivity; discriminate.
  - destruct (process_fragment fuel Root tt tt fragment) as [[p v] c].
    cbn [fst snd]. destruct c; split; try reflexivity; try discriminate.
    + intros [e He]. discriminate.
    + eauto.
    + intros [e He]. discriminate.
  - intros Hfree Hfuel.
    now rewrite (@process_fragment_call_free fragment Hfree fuel Root tt tt Hfuel I).
Qed.

Lemma handler_response_witness :
  lambda_handler.handler 6
    [("fragment", VDict [("a", VList [VInt 1])]);
     ("requestId", VStr "r-1");
     ("params", VDict []);
     ("templateParameterValues", VDict [])]
    VNone
  = Response [("fragment", VDict [("a", VList [VInt 1])]);
              ("requestId", VStr "r-1");
              ("status", VStr "success")].
Proof.
  apply (proj2 (proj2 (proj2
           (@handler_response 6
              [("fragment", VDict [("a", VList [VInt 1])]);
               ("requestId", VStr "r-1");
               ("params", VDict []);
               ("templateParameterValues", VDict [])]
              VNone (VDict [("a", VList [VInt 1])]) (VStr "r-1") (VDict [])
              (VDict []) eq_refl eq_refl eq_refl eq_refl)))).
  - reflexivity.
  - apply Nat.leb_le. reflexivity.
Defined.

(** X10.  [handler] reads the keys "fragment", "requestId", "params" and
    "templateParameterValues" of the event in this order, before the
    [try]: the first of them that the event lacks makes it raise a
    [KeyError] naming that key, which nothing catches (although the last
    two are never used); no response is built. *)
Theorem handler_missing_key fuel (event : dict value) (context : value)
  (before after : list string) (k : string) :
  before ++ k :: after
  = ["fragment"; "requestId"; "params"; "templateParameterValues"] ->
  (forall k0, In k0 before -> dict_get event k0 <> None) ->
  dict_get event k = None ->
  lambda_handler.handler fuel event context
  = Uncaught (Exception KeyError (repr_str k)).
Proof.
  intros Hkeys Hbefore Hk. unfold lambda_handler.handler.
  destruct before as [|k1 [|k2 [|k3 [|k4 before]]]]; cbn [app] in Hkeys.
  - injection Hkeys as -> _. now rewrite Hk.
  - injection Hkeys as -> -> _.
    destruct (dict_get event "fragment") eqn:E1;
      [|exfalso; apply (Hbefore "fragment"); [cbn; auto|exact E1]].
    now rewrite Hk.
  - injection Hkeys as -> -> -> _.
    destruct (dict_get event "fragment") eqn:E1;
      [|exfalso; apply (Hbefore "fragment"); [cbn; auto|exact E1]].
    destruct (dict_get event "requestId") eqn:E2;
      [|exfalso; apply (Hbefore "requestId"); [cbn; auto|exact E2]].
    now rewrite Hk.
  - injection Hkeys as -> -> -> -> _.
    destruct (dict_get event "fragment") eqn:E1;
      [|exfalso; apply (Hbefore "fragment"); [cbn; auto|exact E1]].
    destruct (dict_get event "requestId") eqn:E2;
      [|exfalso; apply (Hbefore "requestId"); [cbn; auto|exact E2]].
    destruct (dict_get event "params") eqn:E3;
      [|exfalso; apply (Hbefore "params"); [cbn; auto|exact E3]].
    now rewrite Hk.
  - exfalso. injection Hkeys as _ _ _ _ Hrest.
    destruct before; discriminate.
Qed.

(** Both "params" and "templateParameterValues" are missing: the error
    names "params". *)
Lemma handler_missing_key_witness :
  lambda_handler.handler 3 [("fragment", VList []); ("requestId", VStr "r")]
    VNone
  = Uncaught (Exception KeyError "'params'").
Proof.
  apply (@handler_missing_key 3 [("fragment", VList []); ("requestId", VStr "r")]
           VNone ["fragment"; "requestId"] ["templateParameterValues"] "params").
  - reflexivity.
  - intros k0 [<-|[<-|[]]]; discriminate.
  - reflexivity.
Defined.

(** ** Interpolation of text without placeholders *)

Lemma safe_substitute_no_dollar (s : string) binding :
  contains_char "$" s = false -> safe_substitute s binding = s.
Proof.
  intros H. unfold safe_substitute.
  rewrite <- (append_nil_r s) at 1.
  rewrite pattern_sub_text by exact H. cbn [pattern_sub]. apply append_nil_r.
Qed.

Lemma keys_distinct_list (l : list value) :
  keys_distinct (VList l) -> Forall keys_distinct l.
Proof.
  cbn [keys_distinct]. induction l as [|x l IH]; cbn [fold_right];
    [constructor|].
  intros [Hx Hl]. constructor; auto.
Qed.

Lemma keys_distinct_dict (d : dict value) :
  keys_distinct (VDict d) ->
  NoDup (dict_keys d) /\ Forall (fun kv => keys_distinct (snd kv)) d.
Proof.
  cbn [keys_distinct]. intros [Hn H]. split; [exact Hn|].
  clear Hn. induction d as [|x d IH]; cbn [fold_right] in *; [constructor|].
  destruct H as [Hx Hd]. constructor; auto.
Qed.

(** X11.  A body in which no string, key or value, holds a [$] is copied
    unchanged by [json_string_sub], whatever the binding (the keys of each
    mapping being distinct, as in any Python dict). *)
Theorem dollar_free_unchanged (body : value) (binding : dict string) :
  dollar_free body = true ->
  keys_distinct body ->
  json_string_sub body binding = body.
Proof.
  induction body as [| | | |s|l IH|d IH] using value_ind;
    cbn [dollar_free json_string_sub]; intros Hd Hk; try reflexivity.
  - apply negb_true_iff in Hd. now rewrite safe_substitute_no_dollar.
  - f_equal. apply keys_distinct_list in Hk.
    rewrite forallb_forall in Hd. rewrite Forall_forall in IH, Hk.
    rewrite <- (map_id l) at 2. apply map_ext_in.
    intros v Hv. auto.
  - f_equal. apply keys_distinct_dict in Hk as [Hn Hk].
    rewrite forallb_forall in Hd. rewrite Forall_forall in IH, Hk.
    assert (Hkey : forall kv, In kv d ->
                              safe_substitute (fst kv) binding = fst kv).
    { intros kv Hkv. specialize (Hd kv Hkv).
      apply andb_true_iff in Hd as [Hd _]. apply negb_true_iff in Hd.
      now apply safe_substitute_no_dollar. }
    rewrite (@fold_dict_set_distinct _ _
               (fun kv : string * value => safe_substitute (fst kv) binding)
               (fun kv => json_string_sub (snd kv) binding) d []).
    + cbn [app]. rewrite <- (map_id d) at 2. apply map_ext_in.
      intros [k v] Hkv. rewrite (Hkey _ Hkv). cbn [fst snd]. f_equal.
      apply (IH _ Hkv).
      * specialize (Hd _ Hkv). apply andb_true_iff in Hd. tauto.
      * apply (Hk _ Hkv).
    + cbn [dict_keys map app].
      replace (map (fun kv : string * value => safe_substitute (fst kv) binding) d)
        with (dict_keys d); [exact Hn|].
      unfold dict_keys. apply map_ext_in. intros kv Hkv.
      symmetry. now apply Hkey.
Qed.

Lemma dollar_free_unchanged_witness :
  json_string_sub (VDict [("a", VList [VStr "b"; VInt 1]); ("c", VNone)])
    [("a", "1")]
  = VDict [("a", VList [VStr "b"; VInt 1]); ("c", VNone)].
Proof.
  apply (@dollar_free_unchanged
           (VDict [("a", VList [VStr "b"; VInt 1]); ("c", VNone)])
           [("a", "1")] eq_refl).
  cbn. repeat split; auto.
  repeat constructor; cbn; intuition discriminate.
Defined.


(** ** What the walk keeps, and how it can fail *)

Section KeysKept.
Variable process_entry
  : dict value -> string -> value -> dict value * value * completion.
Hypothesis process_entry_outside :
  forall d k v, same_outside InDict d k (fst (fst (process_entry d k v))).

Lemma keys_pass_keys fragment_keys :
  forall new seen d,
    dict_keys (snd (fst (keys_pass process_entry fragment_keys new seen d)))
    = dict_keys d.
Proof.
  induction fragment_keys as [|k ks IH]; intros new seen d; cbn [keys_pass];
    [reflexivity|].
  destruct (set_mem k seen); [apply IH|].
  destruct (dict_get d k) as [child|] eqn:E; [|reflexivity].
  pose proof (@process_entry_outside d k child) as [Hk _].
  specialize (Hk (dict_get_In_keys _ _ E)).
  destruct (process_entry d k child) as [[d1 v1] c]. cbn [fst] in Hk.
  destruct c; cbn [fst snd]; auto.
  now rewrite IH.
Qed.

(** With such children a pass never fails on a lookup. *)
Lemma keys_pass_child_completion fragment_keys :
  forall new seen d new' seen' d' c,
    (forall k, In k fragment_keys -> In k (dict_keys d)) ->
    keys_pass process_entry fragment_keys new seen d = (new', seen', d', c) ->
    c = Returned \/ exists d0 k v, snd (process_entry d0 k v) = c.
Proof.
  induction fragment_keys as [|k ks IH]; intros new seen d new' seen' d' c Hin;
    cbn [keys_pass].
  - intros [= _ _ _ <-]. now left.
  - assert (Hks : forall k0, In k0 ks -> In k0 (dict_keys d))
      by (intros k0 H0; apply Hin; now right).
    destruct (set_mem k seen); [now apply IH|].
    destruct (In_dict_keys d k (Hin k (or_introl eq_refl))) as [child Hc].
    rewrite Hc.
    pose proof (@process_entry_outside d k child) as [Hk _].
    specialize (Hk (dict_get_In_keys _ _ Hc)).
    destruct (process_entry d k child) as [[d1 v1] c1] eqn:E. cbn [fst] in Hk.
    destruct c1.
    + apply IH. now rewrite Hk.
    + intros [= _ _ _ <-]. right. exists d, k, child. now rewrite E.
    + intros [= _ _ _ <-]. right. exists d, k, child. now rewrite E.
Qed.

Lemma passes_keys n :
  forall seen d,
    dict_keys (fst (passes process_entry n seen d)) = dict_keys d.
Proof.
  induction n as [|n IH]; intros seen d; cbn [passes].
  - destruct (keys_unseen d seen); reflexivity.
  - pose proof (keys_pass_keys (dict_keys d) false seen d) as Hk.
    destruct (keys_pass process_entry (dict_keys d) false seen d)
      as [[[new s1] d1] c]. cbn [fst snd] in Hk.
    destruct c; cbn [fst]; auto.
    destruct new; cbn [negb fst]; auto.
    now rewrite IH.
Qed.

(** With children that keep the keys, the second pass sees nothing new:
    the loop ends there, and its own check never raises. *)
Lemma passes_child_completion n seen d :
  snd (passes process_entry (S (S n)) seen d) = Returned
  \/ exists d0 k v,
      snd (process_entry d0 k v) = snd (passes process_entry (S (S n)) seen d).
Proof.
  cbn [passes].
  pose proof (keys_pass_keys (dict_keys d) false seen d) as Hk.
  destruct (keys_pass process_entry (dict_keys d) false seen d)
    as [[[new s1] d1] c] eqn:E. cbn [fst snd] in Hk.
  destruct c.
  - destruct new; cbn [negb]; [|now left].
    rewrite (@keys_pass_all_seen process_entry d1 (dict_keys d1) s1);
      [now left|].
    intros k Hin. rewrite Hk in Hin.
    exact (proj2 (@keys_pass_seen_all _ _ _ _ _ _ _ _ E) k Hin).
  - destruct (@keys_pass_child_completion (dict_keys d) false seen d new s1 d1 _
                (fun _ H => H) E) as [Hc|Hc]; [discriminate|right; exact Hc].
  - destruct (@keys_pass_child_completion (dict_keys d) false seen d new s1 d1 _
                (fun _ H => H) E) as [Hc|Hc]; [discriminate|right; exact Hc].
Qed.
End KeysKept.

Section WalkErrors.
Variable process_item
  : list value -> nat -> value -> list value * value * completion.
Variable good : exn -> Prop.
Hypothesis process_item_errors :
  forall l i item e,
    i < length l -> snd (process_item l i item) = Raised e -> good e.

Lemma enumerate_loop_errors steps :
  forall l i e,
    snd (enumerate_loop process_item steps l i) = Raised e -> good e.
Proof.
  induction steps as [|steps IH]; intros l i e; cbn [enumerate_loop];
    [discriminate|].
  destruct (nth_error l i) as [item|] eqn:E; [|discriminate].
  assert (Hi : i < length l) by (apply nth_error_Some; congruence).
  pose proof (@process_item_errors l i item) as Hp.
  destruct (process_item l i item) as [[l1 v1] c]. cbn [snd] in Hp.
  destruct c; cbn [snd].
  - apply IH.
  - intros [= <-]. now apply Hp.
  - discriminate.
Qed.
End WalkErrors.

Lemma py_setitem_errors k parent key v e :
  index_in_range k parent key ->
  snd (py_setitem k parent key v) = Raised e -> type_or_value_error e.
Proof.
  destruct k; cbn [index_in_range py_setitem snd].
  - intros _ [= <-]. now left.
  - intros H. apply Nat.ltb_lt in H. rewrite H. discriminate.
  - discriminate.
Qed.

Lemma splice_errors k parent key v e :
  snd (splice k parent key v) = Raised e -> type_or_value_error e.
Proof.
  destruct k; cbn [splice snd]; try (intros [= <-]; now left).
  destruct v; cbn [snd]; try discriminate; intros [= <-]; now left.
Qed.

Lemma for_each_errors k parent key fragment e :
  index_in_range k parent key ->
  snd (for_each k parent key fragment) = Raised e -> type_or_value_error e.
Proof.
  intros Hr. unfold for_each.
  destruct fragment as [| | | | |items|];
    try (intros [= <-]; (now left) || (now right)).
  destruct items as [|specs [|body [|x items]]];
    try (intros [= <-]; (now left) || (now right)).
  destruct specs as [| | | | |specs|];
    try (intros [= <-]; (now left) || (now right)).
  destruct (iteration_specs_loop _ specs [] []) as [e0|[names vals]] eqn:E.
  - intros [= <-]. eapply iteration_specs_loop_error; eauto.
  - destruct (existsb _ vals); [now apply py_setitem_errors|].
    destruct (combinations_loop _ _ _ _ _ _ _ _);
      [now apply py_setitem_errors|discriminate].
Qed.

Lemma items_loop_many k parent key fragment items e :
  length fragment <> 1 ->
  snd (items_loop k parent key fragment items) = Raised e ->
  type_or_value_error e.
Proof.
  intros Hlen. apply Nat.eqb_neq in Hlen.
  induction items as [|[name v] items IH]; cbn [items_loop];
    [discriminate|].
  destruct (startswith name "Turing::"); [|exact IH].
  rewrite Hlen. cbn [negb snd]. intros [= <-]. now right.
Qed.

Lemma items_loop_errors k parent key (d : dict value) e :
  index_in_range k parent key ->
  snd (items_loop k parent key d d) = Raised e -> type_or_value_error e.
Proof.
  intros Hr.
  destruct d as [|[name v] [|x d]].
  - discriminate.
  - cbn [items_loop length Nat.eqb negb].
    destruct (startswith name "Turing::"); [|discriminate].
    destruct (dict_get functions name) as [f|] eqn:Ef;
      [|intros [= <-]; now right].
    assert (Hf : forall e0, snd (f k parent key v) = Raised e0 ->
                            type_or_value_error e0).
    { intros e0. apply functions_cases in Ef as [[_ ->]|[_ ->]].
      - apply splice_errors.
      - now apply for_each_errors. }
    destruct (f k parent key v) as [p c]. cbn [snd] in Hf.
    destruct c; cbn [snd]; [discriminate| |discriminate].
    intros [= <-]. now apply Hf.
  - apply items_loop_many. cbn [length]. lia.
Qed.

Lemma alias_in_range k parent key v :
  index_in_range k parent key -> index_in_range k (alias k parent key v) key.
Proof.
  destruct k; cbn [index_in_range alias]; auto.
  now rewrite list_set_length.
Qed.

Lemma process_fragment_errors fuel :
  forall k (parent : container k) (key : index k) (v : value) (e : exn),
    index_in_range k parent key ->
    snd (process_fragment fuel k parent key v) = Raised e ->
    type_or_value_error e.
Proof.
  induction fuel as [|fuel IH]; intros k parent key v e Hr;
    [discriminate|].
  destruct v; try discriminate.
  - rewrite process_fragment_list.
    destruct (enumerate_loop (process_fragment fuel InList) fuel l 0)
      as [l' c] eqn:E.
    cbn [snd]. intros ->.
    apply (@enumerate_loop_errors (process_fragment fuel InList)
             type_or_value_error
             (fun l0 i item e0 Hi => IH InList l0 i item e0 Hi) fuel l 0 e).
    now rewrite E.
  - rewrite process_fragment_dict. change MAX_RECURSION with (S (S 14)).
    pose proof (@passes_child_completion (process_fragment fuel InDict)
                  (fun d0 k0 v0 => process_fragment_same_outside fuel InDict d0 k0 v0)
                  14 [] d) as Hc.
    destruct (passes (process_fragment fuel InDict) (S (S 14)) [] d)
      as [d' c]. cbn [snd] in Hc.
    destruct c.
    + pose proof (@items_loop_errors k (alias k parent key (VDict d')) key d' e
                    (alias_in_range _ _ _ _ Hr)) as Hi.
      destruct (items_loop k (alias k parent key (VDict d')) key d' d')
        as [p c]. exact Hi.
    + cbn [snd]. intros [= <-].
      destruct Hc as [Hc|(d0 & k0 & v0 & Hc)]; [discriminate|].
      exact (IH InDict d0 k0 v0 e0 I Hc).
    + discriminate.
Qed.

(** X13.  With the two registered functions the walk can only fail with a
    [TypeError] or a [ValueError]: the "Maximum recursion" check of a
    mapping never fires (its second pass finds no new key), no lookup of a
    snapshot key fails, and no assignment is out of range. *)
Theorem only_type_or_value_errors fuel k (parent : container k) (key : index k)
  (v : value) (e : exn) :
  index_in_range k parent key ->
  snd (process_fragment fuel k parent key v) = Raised e ->
  class_of e = TypeError \/ class_of e = ValueError.
Proof. intros Hr He. exact (process_fragment_errors fuel k parent key v Hr He). Qed.

Lemma only_type_or_value_errors_witness :
  class_of (Exception TypeError "'NoneType' object does not support item assignment")
  = TypeError
  \/ class_of (Exception TypeError "'NoneType' object does not support item assignment")
     = ValueError.
Proof.
  apply (@only_type_or_value_errors 9 Root tt tt
           (call "Turing::ForEach" (for_each_argument [("x", [VInt 1])] (VStr "$x")))
           (Exception TypeError "'NoneType' object does not support item assignment")
           I).
  reflexivity.
Defined.

(** X14.  The walk never changes what kind of value its fragment is: a
    mapping stays a mapping with the same keys in the same order (the
    registered functions add no sibling key), a sequence stays a
    sequence, and a scalar is returned as it is with its parent
    untouched. *)
Theorem fragment_shape_kept fuel k (parent : container k) (key : index k)
  (v : value) :
  match v with
  | VDict d =>
      exists d',
        snd (fst (process_fragment fuel k parent key v)) = VDict d'
        /\ dict_keys d' = dict_keys d
  | VList l =>
      exists l', snd (fst (process_fragment fuel k parent key v)) = VList l'
  | _ => fst (process_fragment fuel k parent key v) = (parent, v)
  end.
Proof.
  destruct fuel as [|fuel]; [destruct v; cbn; eauto|].
  destruct v; try reflexivity.
  - rewrite process_fragment_list.
    destruct (enumerate_loop _ _ _ _) as [l' c]. cbn [fst snd]. eauto.
  - rewrite process_fragment_dict.
    pose proof (@passes_keys (process_fragment fuel InDict)
                  (fun d0 k0 v0 => process_fragment_same_outside fuel InDict d0 k0 v0)
                  MAX_RECURSION [] d) as Hk.
    destruct (passes _ _ _ _) as [d' c]. cbn [fst] in Hk.
    exists d'. split; [|exact Hk].
    destruct c; try reflexivity.
    destruct (items_loop _ _ _ _ _); reflexivity.
Qed.

(** ** What a call leaves in place around its slot *)

Lemma list_set_split A (l : list A) i v :
  i < length l -> list_set l i v = firstn i l ++ [v] ++ skipn (i + 1) l.
Proof.
  revert i; induction l as [|x l IH]; intros [|i] H; cbn in *; try lia.
  - reflexivity.
  - f_equal. apply IH. lia.
Qed.

Lemma list_split_at A (l : list A) i :
  i < length l -> exists mid, l = firstn i l ++ mid ++ skipn (i + 1) l.
Proof.
  intros H. destruct (nth_error l i) as [x|] eqn:E.
  - exists [x]. rewrite <- (list_set_same _ _ E) at 1. now apply list_set_split.
  - apply nth_error_None in E. lia.
Qed.

Lemma items_loop_many_parent k parent key fragment items :
  length fragment <> 1 ->
  fst (items_loop k parent key fragment items) = parent.
Proof.
  intros Hlen. apply Nat.eqb_neq in Hlen.
  induction items as [|[name v] items IH]; cbn [items_loop]; [reflexivity|].
  destruct (startswith name "Turing::"); [|exact IH].
  now rewrite Hlen.
Qed.

Lemma function_frame (f : handler) name l i v :
  dict_get functions name = Some f -> i < length l ->
  exists mid, fst (f InList l i v) = firstn i l ++ mid ++ skipn (i + 1) l.
Proof.
  intros Hf Hi. apply functions_cases in Hf as [[_ ->]|[_ ->]].
  - destruct v; cbn [splice fst]; try (now apply list_split_at).
    eauto.
  - destruct (for_each_result InList l i v) as [(c & E & _)|[result E]];
      rewrite E; cbn [fst].
    + now apply list_split_at.
    + cbn [py_setitem]. apply Nat.ltb_lt in Hi. rewrite Hi. cbn [fst].
      apply Nat.ltb_lt in Hi. eexists. now apply list_set_split.
Qed.

Lemma items_loop_frame l i (d : dict value) :
  i < length l ->
  exists mid, fst (items_loop InList l i d d) = firstn i l ++ mid ++ skipn (i + 1) l.
Proof.
  intros Hi.
  destruct d as [|[name v] [|x d]].
  - now apply list_split_at.
  - cbn [items_loop length Nat.eqb negb].
    destruct (startswith name "Turing::"); [|now apply list_split_at].
    destruct (dict_get functions name) as [f|] eqn:Ef;
      [|now apply list_split_at].
    destruct (@function_frame f name l i v Ef Hi) as [mid Hm].
    destruct (f InList l i v) as [p c]. cbn [fst] in Hm.
    exists mid. destruct c; exact Hm.
  - rewrite items_loop_many_parent by (cbn [length]; lia).
    now apply list_split_at.
Qed.

(** X15.  Resolving the fragment at [parent[key]] leaves the rest of the
    parent in place.  In a mapping the keys and their order stay and every
    other entry keeps its value; in a sequence the elements before the
    index and the elements after it are all still there, in order, around
    whatever now stands for the fragment. *)
Theorem siblings_kept fuel :
  (forall (d : dict value) (key : string) (v : value),
      In key (dict_keys d) ->
      dict_keys (fst (fst (process_fragment fuel InDict d key v))) = dict_keys d
      /\ forall k', k' <> key ->
           dict_get (fst (fst (process_fragment fuel InDict d key v))) k'
           = dict_get d k')
  /\ (forall (l : list value) (i : nat) (v : value),
         i < length l ->
         exists mid,
           fst (fst (process_fragment fuel InList l i v))
           = firstn i l ++ mid ++ skipn (i + 1) l).
Proof.
  split.
  - intros d key v Hin.
    destruct (process_fragment_same_outside fuel InDict d key v) as [Hk Ho].
    split; auto.
  - intros l i v Hi.
    destruct fuel as [|fuel]; [now apply list_split_at|].
    destruct v; try (now apply list_split_at).
    + rewrite process_fragment_list.
      destruct (enumerate_loop _ _ _ _) as [l' c]. cbn [fst alias].
      eexists. now apply list_set_split.
    + rewrite process_fragment_dict.
      destruct (passes _ _ _ _) as [d' c].
      assert (Ha : exists mid,
                 alias InList l i (VDict d')
                 = firstn i l ++ mid ++ skipn (i + 1) l)
        by (cbn [alias]; eexists; now apply list_set_split).
      destruct c; cbn [fst]; try exact Ha.
      destruct (@items_loop_frame (alias InList l i (VDict d')) i d')
        as [mid Hm]; [cbn [alias]; now rewrite list_set_length|].
      cbn [alias] in Hm. rewrite firstn_list_set, skipn_list_set in Hm.
      destruct (items_loop _ _ _ _ _) as [p c]. cbn [fst] in *.
      eauto.
Qed.

Lemma siblings_kept_witness :
  exists mid,
    fst (fst (process_fragment 5 InList
                [VStr "a"; call "Turing::Splice" (VList []); VStr "b"] 1
                (call "Turing::Splice" (VList []))))
    = firstn 1 [VStr "a"; call "Turing::Splice" (VList []); VStr "b"]
      ++ mid
      ++ skipn 2 [VStr "a"; call "Turing::Splice" (VList []); VStr "b"].
Proof.
  apply (proj2 (siblings_kept 5)
           [VStr "a"; call "Turing::Splice" (VList []); VStr "b"] 1
           (call "Turing::Splice" (VList []))).
  cbn. lia.
Defined.

(** ** The bound of the model *)

Section FuelPasses.
Variables process_entry process_entry'
  : dict value -> string -> value -> dict value * value * completion.
Hypothesis entry_mono :
  forall d k v r,
    process_entry d k v = r -> snd r <> OutOfFuel -> process_entry' d k v = r.

Lemma keys_pass_mono fragment_keys :
  forall new seen d r,
    keys_pass process_entry fragment_keys new seen d = r ->
    snd r <> OutOfFuel ->
    keys_pass process_entry' fragment_keys new seen d = r.
Proof.
  induction fragment_keys as [|k ks IH]; intros new seen d r; cbn [keys_pass];
    [auto|].
  destruct (set_mem k seen); [apply IH|].
  destruct (dict_get d k) as [child|]; [|auto].
  pose proof (@entry_mono d k child _ eq_refl) as Hm.
  destruct (process_entry d k child) as [[d1 v1] c]. cbn [snd] in Hm.
  destruct c.
  - rewrite Hm by discriminate. apply IH.
  - rewrite Hm by discriminate. auto.
  - intros <-. cbn [snd]. congruence.
Qed.

Lemma passes_mono n :
  forall seen d r,
    passes process_entry n seen d = r -> snd r <> OutOfFuel ->
    passes process_entry' n seen d = r.
Proof.
  induction n as [|n IH]; intros seen d r; cbn [passes]; [auto|].
  pose proof (@keys_pass_mono (dict_keys d) false seen d _ eq_refl) as Hm.
  destruct (keys_pass process_entry (dict_keys d) false seen d)
    as [[[new s1] d1] c]. cbn [snd] in Hm.
  destruct c.
  - rewrite Hm by discriminate. destruct new; cbn [negb]; auto.
  - rewrite Hm by discriminate. auto.
  - intros <-. cbn [snd]. congruence.
Qed.
End FuelPasses.

Section FuelWalk.
Variables process_item process_item'
  : list value -> nat -> value -> list value * value * completion.
Hypothesis item_mono :
  forall l i v r,
    process_item l i v = r -> snd r <> OutOfFuel -> process_item' l i v = r.

Lemma enumerate_loop_mono steps :
  forall steps' l i r,
    steps <= steps' ->
    enumerate_loop process_item steps l i = r -> snd r <> OutOfFuel ->
    enumerate_loop process_item' steps' l i = r.
Proof.
  induction steps as [|steps IH]; intros steps' l i r Hs; cbn [enumerate_loop].
  - intros <-. cbn [snd]. congruence.
  - destruct steps' as [|steps']; [lia|]. cbn [enumerate_loop].
    destruct (nth_error l i) as [item|]; [|auto].
    pose proof (@item_mono l i item _ eq_refl) as Hm.
    destruct (process_item l i item) as [[l1 v1] c]. cbn [snd] in Hm.
    destruct c.
    + rewrite Hm by discriminate. apply IH. lia.
    + rewrite Hm by discriminate. auto.
    + intros <-. cbn [snd]. congruence.
Qed.
End FuelWalk.

Lemma process_fragment_mono fuel :
  forall fuel' k (parent : container k) (key : index k) (v : value) r,
    fuel <= fuel' ->
    process_fragment fuel k parent key v = r -> snd r <> OutOfFuel ->
    process_fragment fuel' k parent key v = r.
Proof.
  induction fuel as [|fuel IH]; intros fuel' k parent key v r Hle.
  - intros <-. cbn [process_fragment snd]. congruence.
  - destruct fuel' as [|fuel']; [lia|].
    assert (Hle' : fuel <= fuel') by lia.
    destruct v as [| | | | |l|d].
    1-5: intros <- _; reflexivity.
    + rewrite !process_fragment_list.
      pose proof (@enumerate_loop_mono (process_fragment fuel InList)
                    (process_fragment fuel' InList)
                    (fun l0 i0 v0 r0 => IH fuel' InList l0 i0 v0 r0 Hle')
                    fuel fuel' l 0 _ Hle' eq_refl) as Hm.
      destruct (enumerate_loop (process_fragment fuel InList) fuel l 0)
        as [l1 c]. cbn [snd] in Hm.
      intros <-. cbn [snd]. intros Hc. now rewrite Hm.
    + rewrite !process_fragment_dict.
      pose proof (@passes_mono (process_fragment fuel InDict)
                    (process_fragment fuel' InDict)
                    (fun d0 k0 v0 r0 => IH fuel' InDict d0 k0 v0 r0 Hle')
                    MAX_RECURSION [] d _ eq_refl) as Hm.
      destruct (passes (process_fragment fuel InDict) MAX_RECURSION [] d)
        as [d1 c]. cbn [snd] in Hm.
      destruct c.
      * rewrite Hm by discriminate. auto.
      * rewrite Hm by discriminate. auto.
      * intros <-. cbn [snd]. congruence.
Qed.


(** ** A call that raises *)




